(** * Query sharding by [sum] fan-out: the cortex [astmapper] shard summer

    A shallow embedding of
    [vendor/github.com/cortexproject/cortex/pkg/querier/astmapper/shard_summer.go]
    together with the parts of the Go standard library it calls
    ([strconv.Atoi], [fmt.Sprintf] with [%d], [regexp.MatchString] for the
    anchored shard-label pattern, [strings.Split]).

    Conventions.
    - A Go [int] is a [Z]; where the width matters ([strconv.Atoi]) the
      64-bit bounds are written out.
    - A Go [string] is a [string] of bytes.
    - A Go [(value, error)] pair is a [result]; functions that return more
      than two values keep their tuple.
    - The Prometheus counter is the only mutable state: it is threaded
      explicitly through a small state monad. *)

From Stdlib Require Import ZArith List String Ascii Bool Lia.
Import ListNotations.

Set Warnings "-register-all".
Local Open Scope Z_scope.

(** ** Errors and results *)

(** The error values that can reach a caller.  Each constructor records the
    arguments of the format string that builds the message in the source. *)
Inductive error : Type :=
| ErrInvalidShardLabel (input : string)      (* "Invalid ShardLabel value: [%s]" *)
| ErrSyntax (num : string)                   (* strconv.NumError{"Atoi", num, ErrSyntax} *)
| ErrRange (num : string)                    (* strconv.NumError{"Atoi", num, ErrRange} *)
| ErrShardsOutOfBounds (x of_ : Z)           (* "Shards out of bounds: [%d] >= [%d]" *)
| ErrInvalidSelectorType (T : string)        (* "invalid selector type: %T" *)
| ErrSquasherRequired                        (* "squasher required and not passed" *)
| ErrRegexpCompile (pattern : string)        (* labels.NewMatcher on a bad pattern *)
| ErrExternal (msg : string)                 (* raised by a collaborator *)
| PanicIndexOutOfRange (i : nat) (len : nat) (* run-time panic, not a returned error *)
| PanicInterfaceConversion (T : string)      (* run-time panic of a type assertion *)
| PanicCounterDecrease                       (* panic of Add: "counter cannot decrease in value" *)
| PanicMustRegister (e : error)              (* panic of promauto when registration is refused *)
| ErrOutOfFuel.                              (* only the bounded tree walk below *)

Inductive result (A : Type) : Type :=
| OK (a : A)
| Err (e : error).
Arguments OK {A} a.
Arguments Err {A} e.

Definition is_ok {A} (r : result A) : bool :=
  match r with OK _ => true | Err _ => false end.

(** ** Package [strconv] *)

Module strconv.

(** [strconv.IntSize] on the 64-bit targets the program is built for. *)
Definition intSize : Z := 64.
Definition maxInt : Z := 2 ^ (intSize - 1) - 1.
Definition minInt : Z := - 2 ^ (intSize - 1).
Definition maxUint64 : Z := 2 ^ 64 - 1.

Definition is_digit (c : ascii) : bool :=
  ((48 <=? nat_of_ascii c) && (nat_of_ascii c <=? 57))%nat.

(** [ch - '0'] *)
Definition digit_val (c : ascii) : Z := Z.of_nat (nat_of_ascii c) - 48.

(** [byte(u) + '0'] for [0 <= u < 10] *)
Definition digit_char (u : Z) : ascii := ascii_of_nat (Z.to_nat (u + 48)).

(** The base-10 loop of [formatBits]: digits are written from the least
    significant one into the front of [acc].
    [for u >= 10 { a[i] = u%10 + '0'; u /= 10 }; a[i] = u + '0'] *)
Fixpoint formatBits (fuel : nat) (u : Z) (acc : string) : string :=
  match fuel with
  | O => String (digit_char u) acc
  | S fuel' =>
      if 10 <=? u
      then formatBits fuel' (u / 10) (String (digit_char (u mod 10)) acc)
      else String (digit_char u) acc
  end.

(** [strconv.FormatInt(i, 10)]: a minus sign for negative values, then the
    digits of the magnitude.  The loop runs at most [log2 u] times. *)
Definition FormatInt (i : Z) : string :=
  if i <? 0
  then String "-"%char (formatBits (Z.to_nat (Z.log2 (- i))) (- i) EmptyString)
  else formatBits (Z.to_nat (Z.log2 i)) i EmptyString.

Definition Itoa (i : Z) : string := FormatInt i.

(** The digit loop of [ParseUint(s, 10, 64)]: a byte that is not a digit is
    a syntax error, a value that leaves the 64-bit unsigned range is a
    range error, whichever comes first.  [s0] is the string reported in
    the error. *)
Fixpoint ParseUint_loop (s0 : string) (s : string) (n : Z) : result Z :=
  match s with
  | EmptyString => OK n
  | String ch s' =>
      if is_digit ch then
        let n1 := n * 10 + digit_val ch in
        if maxUint64 <? n1 then Err (ErrRange s0) else ParseUint_loop s0 s' n1
      else Err (ErrSyntax s0)
  end.

(** [strconv.Atoi]: an optional sign, at least one digit, and the value
    must fit the [int] type. *)
Definition Atoi (s : string) : result Z :=
  match s with
  | EmptyString => Err (ErrSyntax s)
  | String c rest =>
      let neg := Ascii.eqb c "-" in
      let body := if neg || Ascii.eqb c "+" then rest else s in
      match body with
      | EmptyString => Err (ErrSyntax s)
      | String _ _ =>
          match ParseUint_loop s body 0 with
          | Err e => Err e
          | OK un =>
              if neg
              then if - minInt <? un then Err (ErrRange s) else OK (- un)
              else if maxInt <? un then Err (ErrRange s) else OK un
          end
      end
  end.

End strconv.

(** ** Package [regexp], as far as the shard-label pattern needs it *)

Module regexp.

(** Syntax of the patterns used: byte classes [[lo-hi]], literal bytes,
    concatenation, alternation and repetition. *)
Inductive regex : Type :=
| Void
| Eps
| Class (lo hi : ascii)
| Lit (c : ascii)
| Cat (r1 r2 : regex)
| Alt (r1 r2 : regex)
| Star (r : regex).

(** [r+] *)
Definition Plus (r : regex) : regex := Cat r (Star r).

(** A literal run of bytes. *)
Fixpoint Lits (s : string) : regex :=
  match s with
  | EmptyString => Eps
  | String c s' => Cat (Lit c) (Lits s')
  end.

Definition in_class (lo hi c : ascii) : bool :=
  ((nat_of_ascii lo <=? nat_of_ascii c) && (nat_of_ascii c <=? nat_of_ascii hi))%nat.

Fixpoint nullable (r : regex) : bool :=
  match r with
  | Void => false
  | Eps => true
  | Class _ _ => false
  | Lit _ => false
  | Cat r1 r2 => nullable r1 && nullable r2
  | Alt r1 r2 => nullable r1 || nullable r2
  | Star _ => true
  end.

(** Brzozowski derivative: the pattern for what may follow the byte [c]. *)
Fixpoint deriv (c : ascii) (r : regex) : regex :=
  match r with
  | Void => Void
  | Eps => Void
  | Class lo hi => if in_class lo hi c then Eps else Void
  | Lit c' => if Ascii.eqb c c' then Eps else Void
  | Cat r1 r2 =>
      if nullable r1
      then Alt (Cat (deriv c r1) r2) (deriv c r2)
      else Cat (deriv c r1) r2
  | Alt r1 r2 => Alt (deriv c r1) (deriv c r2)
  | Star r1 => Cat (deriv c r1) (Star r1)
  end.

(** [re.MatchString(s)] for a pattern written [^r$]: both anchors are
    present, so the whole input has to be in the language of [r]. *)
Fixpoint MatchString (r : regex) (s : string) : bool :=
  match s with
  | EmptyString => nullable r
  | String c s' => MatchString (deriv c r) s'
  end.

End regexp.

(** ** Package [strings] *)

Module strings.

(** [strings.Split(s, sep)] for a one-byte separator: the pieces of [s]
    between the occurrences of [sep]; [Split("", sep)] is [[""]]. *)
Fixpoint Split (s : string) (sep : ascii) : list string :=
  match s with
  | EmptyString => [EmptyString]
  | String c s' =>
      if Ascii.eqb c sep then EmptyString :: Split s' sep
      else match Split s' sep with
           | [] => [String c EmptyString]
           | piece :: pieces => String c piece :: pieces
           end
  end.

End strings.

(** ** Package [labels] (Prometheus) *)

Module labels.

Inductive MatchType : Type :=
| MatchEqual
| MatchNotEqual
| MatchRegexp
| MatchNotRegexp.

Definition MatchType_eqb (a b : MatchType) : bool :=
  match a, b with
  | MatchEqual, MatchEqual
  | MatchNotEqual, MatchNotEqual
  | MatchRegexp, MatchRegexp
  | MatchNotRegexp, MatchNotRegexp => true
  | _, _ => false
  end.

Record Matcher : Type := {
  Type_ : MatchType;
  Name : string;
  Value : string
}.

Section NewMatcher.
(** Whether a pattern is accepted by the regular-expression compiler;
    consulted for the two regular-expression match types only. *)
Variable regexp_compiles : string -> bool.

(** [labels.NewMatcher(t, n, v)] *)
Definition NewMatcher (t : MatchType) (n v : string) : result Matcher :=
  let m := {| Type_ := t; Name := n; Value := v |} in
  match t with
  | MatchRegexp | MatchNotRegexp =>
      if regexp_compiles v then OK m else Err (ErrRegexpCompile v)
  | MatchEqual | MatchNotEqual => OK m
  end.
End NewMatcher.

End labels.

(** ** Package [promql]: the expression tree *)

Module promql.

Definition Pos : Type := Z.

Record PositionRange : Type := { Start : Pos; End_ : Pos }.

(** The zero value of [PositionRange]. *)
Definition zeroPositionRange : PositionRange := {| Start := 0; End_ := 0 |}.

(** Aggregation operators among the [ItemType] tokens. *)
Inductive ItemType : Type :=
| SUM | AVG | COUNT | MIN | MAX | STDDEV | STDVAR
| TOPK | BOTTOMK | COUNT_VALUES | QUANTILE.

Definition ItemType_eqb (a b : ItemType) : bool :=
  match a, b with
  | SUM, SUM | AVG, AVG | COUNT, COUNT | MIN, MIN | MAX, MAX
  | STDDEV, STDDEV | STDVAR, STDVAR | TOPK, TOPK | BOTTOMK, BOTTOMK
  | COUNT_VALUES, COUNT_VALUES | QUANTILE, QUANTILE => true
  | _, _ => false
  end.

Module AggregateExpr.
Record t (E : Type) : Type := {
  Op : ItemType;
  Expr : E;
  Param : E;
  Grouping : list string;
  Without : bool;
  PosRange : PositionRange
}.
Arguments Op {E} _.
Arguments Expr {E} _.
Arguments Param {E} _.
Arguments Grouping {E} _.
Arguments Without {E} _.
Arguments PosRange {E} _.

(** [n.Expr = e] *)
Definition set_Expr {E} (n : t E) (e : E) : t E :=
  {| Op := Op n;
     Expr := e;
     Param := Param n;
     Grouping := Grouping n;
     Without := Without n;
     PosRange := PosRange n |}.
End AggregateExpr.

Module VectorSelector.
Record t : Type := {
  Name : string;
  Offset : Z;
  LabelMatchers : list labels.Matcher;
  PosRange : PositionRange
}.
End VectorSelector.

Module MatrixSelector.
Record t (E : Type) : Type := {
  VectorSelector : E;
  Range : Z;
  EndPos : Pos
}.
Arguments VectorSelector {E} _.
Arguments Range {E} _.
Arguments EndPos {E} _.
End MatrixSelector.

(** A value of the [Node] interface.  [Nil] is the nil interface value
    (an absent [Param], the [Expr] of a freshly built aggregate); [Other]
    stands for the node kinds the shard summer does not look into (binary
    expressions, calls, literals, ...), tagged with their Go type. *)
Inductive Node : Type :=
| Nil
| Aggregate (n : AggregateExpr.t Node)
| Vector (n : VectorSelector.t)
| Matrix (n : MatrixSelector.t Node)
| Other (kind : string) (children : list Node).

(** What [%T] prints for the dynamic type of a node. *)
Definition typeName (n : Node) : string :=
  match n with
  | Nil => "<nil>"
  | Aggregate _ => "*promql.AggregateExpr"
  | Vector _ => "*promql.VectorSelector"
  | Matrix _ => "*promql.MatrixSelector"
  | Other kind _ => kind
  end.

(** Whether the type assertion [n.(promql.Expr)] succeeds: every node
    kind is an expression except the nil value, statements and
    expression lists. *)
Definition implements_Expr (n : Node) : bool :=
  match n with
  | Nil => false
  | Other kind _ =>
      negb (String.eqb kind "*promql.EvalStmt" || String.eqb kind "promql.Expressions")
  | _ => true
  end.

End promql.

(** ** Package [astmapper]: [shard_summer.go] *)

Import labels promql.

(** [ShardLabel] is a reserved label referencing a cortex shard. *)
Definition ShardLabel : string := "__cortex_shard__".

(** [fmt.Sprintf(ShardLabelFmt, a, b)] with [ShardLabelFmt = "%d_of_%d"]. *)
Definition Sprintf_ShardLabelFmt (a b : Z) : string :=
  (strconv.Itoa a ++ "_of_" ++ strconv.Itoa b)%string.

(** [ShardLabelRE = regexp.MustCompile("^[0-9]+_of_[0-9]+$")]; the anchors
    are accounted for by [regexp.MatchString]. *)
Definition ShardLabelRE : regexp.regex :=
  regexp.Cat (regexp.Plus (regexp.Class "0" "9"))
    (regexp.Cat (regexp.Lits "_of_") (regexp.Plus (regexp.Class "0" "9"))).

(** [type squasher = func(...promql.Node) (promql.Expr, error)] *)
Definition squasher : Type := list Node -> result Node.

(** The options of the counter a summer registers. *)
Record CounterOpts : Type := {
  Namespace : string;
  CounterName : string;
  Help : string
}.

Record shardSummer : Type := {
  shards : Z;
  currentShard : option Z;
  squash : squasher;
  shardedQueries : CounterOpts
}.

(** *** The counter and the state monad *)

(** State of the [shardedQueries] counter: the amounts it has taken from
    [Add], oldest first.  [Add(float64(n))] is recorded as the integer [n]
    that the source converts. *)
Definition Counter : Type := list Z.

Definition M (A : Type) : Type := Counter -> A * Counter.

Definition ret {A} (a : A) : M A := fun c => (a, c).

Definition bind {A B} (m : M A) (k : A -> M B) : M B :=
  fun c => let (a, c') := m c in k a c'.

Notation "x <- m ;; k" := (bind m (fun x => k))
  (at level 61, m at next level, right associativity).
Notation "' pat <- m ;; k" := (bind m (fun x => match x with pat => k end))
  (at level 61, pat pattern, m at next level, right associativity).

(** Modelled from the spec: the counter sink behind [shardedQueries] (the
    Prometheus client is not among the sources).  The counter is
    monotonically increasing: [counter.Add(float64(n))] records a
    non-negative amount, and refuses a negative one with a panic that
    leaves the counter as it was.  The panic is handed back as [Some _]. *)
Definition Add (n : Z) : M (option error) :=
  fun c =>
    if n <? 0 then (Some PanicCounterDecrease, c)
    else (None, (c ++ [n])%list).

(** The value the counter shows. *)
Definition total (c : Counter) : Z := fold_right Z.add 0 c.

(** [prometheus.Registerer]: what the registerer answers when a counter
    with the given options is registered with it, an error when it refuses
    (for instance because a counter of that name is registered already). *)
Record Registerer : Type := { Register : CounterOpts -> option error }.

(** [promauto.With(registerer).NewCounter(opts)] (the Prometheus client is
    not among the sources): the counter is created, and registered when the
    registerer is not nil; a refused registration is a panic
    ([MustRegister]), handed back as [Err (PanicMustRegister _)]. *)
Definition promauto_NewCounter (registerer : option Registerer) (opts : CounterOpts)
  : result CounterOpts :=
  match registerer with
  | None => OK opts
  | Some r =>
      match Register r opts with
      | Some e => Err (PanicMustRegister e)
      | None => OK opts
      end
  end.

(** [NewShardSummer] instantiates an ASTMapper which will fan out sum
    queries by shard.  A nil [squasher] is [None], a nil [registerer] is
    [None].  The combiner is checked first; the counter is created and
    registered while the summer is built. *)
Definition NewShardSummer (shards : Z) (squasher : option squasher)
    (registerer : option Registerer) : result shardSummer :=
  match squasher with
  | None => Err ErrSquasherRequired
  | Some squasher =>
      match promauto_NewCounter registerer
              {| Namespace := "cortex";
                 CounterName := "frontend_sharded_queries_total";
                 Help := "Total number of sharded queries" |} with
      | Err panic => Err panic
      | OK counter =>
          OK {| shards := shards;
                squash := squasher;
                currentShard := None;
                shardedQueries := counter |}
      end
  end.

(** [CopyWithCurShard] clones a shardSummer with a new current shard. *)
Definition CopyWithCurShard (summer : shardSummer) (curshard : Z) : shardSummer :=
  {| shards := shards summer;
     currentShard := Some curshard;
     squash := squash summer;
     shardedQueries := shardedQueries summer |}.

(** [ShardAnnotation] is a convenience struct which holds data from a
    parsed shard label. *)
Record ShardAnnotation : Type := { Shard : Z; Of : Z }.

(** [String] encodes a shardAnnotation into a label value. *)
Definition String_ (shard : ShardAnnotation) : string :=
  Sprintf_ShardLabelFmt (Shard shard) (Of shard).

(** [ParseShard] will extract the shard information encoded in
    [ShardLabelFmt]. *)
Definition ParseShard (input : string) : result ShardAnnotation :=
  if negb (regexp.MatchString ShardLabelRE input)
  then Err (ErrInvalidShardLabel input)
  else
    let matches := strings.Split input "_" in
    match nth_error matches 0 with
    | None => Err (PanicIndexOutOfRange 0 (List.length matches))
    | Some m0 =>
        match strconv.Atoi m0 with
        | Err e => Err e
        | OK x =>
            match nth_error matches 2 with
            | None => Err (PanicIndexOutOfRange 2 (List.length matches))
            | Some m2 =>
                match strconv.Atoi m2 with
                | Err e => Err e
                | OK of_ =>
                    if of_ <=? x
                    then Err (ErrShardsOutOfBounds x of_)
                    else OK {| Shard := x; Of := of_ |}
                end
            end
        end
    end.

(** The [range] loop of [ShardFromMatchers], at index [i]. *)
Fixpoint ShardFromMatchers_from (i : Z) (matchers : list Matcher)
  : option ShardAnnotation * Z * option error :=
  match matchers with
  | [] => (None, 0, None)
  | matcher :: rest =>
      if String.eqb (Name matcher) ShardLabel
         && MatchType_eqb (Type_ matcher) MatchEqual
      then match ParseShard (Value matcher) with
           | Err e => (None, i, Some e)
           | OK shard => (Some shard, i, None)
           end
      else ShardFromMatchers_from (i + 1) rest
  end.

(** [ShardFromMatchers] extracts a ShardAnnotation and the index it was
    pulled from in the matcher list. *)
Definition ShardFromMatchers (matchers : list Matcher)
  : option ShardAnnotation * Z * option error :=
  ShardFromMatchers_from 0 matchers.

Section Externals.

(** Collaborators that live outside [shard_summer.go]. *)
Variable regexp_compiles : string -> bool.      (* the pattern compiler behind NewMatcher *)
Variable CanParallelize : Node -> bool.         (* the parallelizability predicate *)
Variable CloneNode : Node -> result Node.       (* the node cloner *)

Definition shardVectorSelector (curshard shards : Z) (selector : VectorSelector.t)
  : result Node :=
  match NewMatcher regexp_compiles MatchEqual ShardLabel
          (Sprintf_ShardLabelFmt curshard shards) with
  | Err err => Err err
  | OK shardMatcher =>
      OK (Vector
            {| VectorSelector.Name := VectorSelector.Name selector;
               VectorSelector.Offset := VectorSelector.Offset selector;
               VectorSelector.LabelMatchers :=
                 [shardMatcher] ++ VectorSelector.LabelMatchers selector;
               VectorSelector.PosRange := zeroPositionRange |})
  end.

Definition shardMatrixSelector (curshard shards : Z) (selector : MatrixSelector.t Node)
  : result Node :=
  match NewMatcher regexp_compiles MatchEqual ShardLabel
          (Sprintf_ShardLabelFmt curshard shards) with
  | Err err => Err err
  | OK shardMatcher =>
      match MatrixSelector.VectorSelector selector with
      | Vector vs =>
          OK (Matrix
                {| MatrixSelector.VectorSelector :=
                     Vector
                       {| VectorSelector.Name := VectorSelector.Name vs;
                          VectorSelector.Offset := VectorSelector.Offset vs;
                          VectorSelector.LabelMatchers :=
                            [shardMatcher] ++ VectorSelector.LabelMatchers vs;
                          VectorSelector.PosRange := VectorSelector.PosRange vs |};
                   MatrixSelector.Range := MatrixSelector.Range selector;
                   MatrixSelector.EndPos := MatrixSelector.EndPos selector |})
      | other => Err (ErrInvalidSelectorType (typeName other))
      end
  end.

Section Mapper.

(** [NewASTNodeMapper(summer).Map]: the generic tree mapper wrapped
    around a summer. *)
Variable Map : shardSummer -> Node -> M (result Node).

(** The three ways [splitSum] shapes the parent and builds a child. *)
Definition splitSum_shape (expr : AggregateExpr.t Node)
  : AggregateExpr.t Node * (AggregateExpr.t Node -> Node) :=
  if AggregateExpr.Without expr then
    ({| AggregateExpr.Op := AggregateExpr.Op expr;
        AggregateExpr.Param := AggregateExpr.Param expr;
        AggregateExpr.Expr := Nil;
        AggregateExpr.Grouping := [ShardLabel];
        AggregateExpr.Without := true;
        AggregateExpr.PosRange := zeroPositionRange |},
     fun sharded =>
       Aggregate
         {| AggregateExpr.Op := AggregateExpr.Op sharded;
            AggregateExpr.Param := AggregateExpr.Param sharded;
            AggregateExpr.Expr := AggregateExpr.Expr sharded;
            AggregateExpr.Grouping := AggregateExpr.Grouping expr;
            AggregateExpr.Without := true;
            AggregateExpr.PosRange := AggregateExpr.PosRange sharded |})
  else if (0 <? List.length (AggregateExpr.Grouping expr))%nat then
    ({| AggregateExpr.Op := AggregateExpr.Op expr;
        AggregateExpr.Param := AggregateExpr.Param expr;
        AggregateExpr.Expr := Nil;
        AggregateExpr.Grouping := AggregateExpr.Grouping expr;
        AggregateExpr.Without := false;
        AggregateExpr.PosRange := zeroPositionRange |},
     fun sharded =>
       let groups := ([] ++ AggregateExpr.Grouping expr ++ [ShardLabel])%list in
       Aggregate
         {| AggregateExpr.Op := AggregateExpr.Op sharded;
            AggregateExpr.Param := AggregateExpr.Param sharded;
            AggregateExpr.Expr := AggregateExpr.Expr sharded;
            AggregateExpr.Grouping := groups;
            AggregateExpr.Without := AggregateExpr.Without sharded;
            AggregateExpr.PosRange := AggregateExpr.PosRange sharded |})
  else
    ({| AggregateExpr.Op := AggregateExpr.Op expr;
        AggregateExpr.Param := AggregateExpr.Param expr;
        AggregateExpr.Expr := Nil;
        AggregateExpr.Grouping := [ShardLabel];
        AggregateExpr.Without := true;
        AggregateExpr.PosRange := zeroPositionRange |},
     fun sharded =>
       Aggregate
         {| AggregateExpr.Op := AggregateExpr.Op sharded;
            AggregateExpr.Param := AggregateExpr.Param sharded;
            AggregateExpr.Expr := AggregateExpr.Expr sharded;
            AggregateExpr.Grouping := [ShardLabel];
            AggregateExpr.Without := AggregateExpr.Without sharded;
            AggregateExpr.PosRange := AggregateExpr.PosRange sharded |}).

(** The loop of [splitSum] that creates the children: [n] iterations
    are left, the next one is for shard [i], [children] holds the legs
    built so far.  On a failure the legs built so far and the error are
    what [splitSum] returns; a failed type assertion on the mapped
    clone is a panic. *)
Fixpoint splitSum_children (summer : shardSummer) (expr : AggregateExpr.t Node)
    (mkChild : AggregateExpr.t Node -> Node)
    (n : nat) (i : Z) (children : list Node)
  : M (list Node * option error) :=
  match n with
  | O => ret (children, None)
  | S n' =>
      match CloneNode (AggregateExpr.Expr expr) with
      | Err err => ret (children, Some err)
      | OK cloned =>
          r <- Map (CopyWithCurShard summer i) cloned ;;
          match r with
          | Err err => ret (children, Some err)
          | OK sharded =>
              if implements_Expr sharded then
                let subSum :=
                  mkChild
                    {| AggregateExpr.Op := AggregateExpr.Op expr;
                       AggregateExpr.Expr := sharded;
                       AggregateExpr.Param := Nil;
                       AggregateExpr.Grouping := [];
                       AggregateExpr.Without := false;
                       AggregateExpr.PosRange := zeroPositionRange |} in
                splitSum_children summer expr mkChild n' (i + 1)
                  (children ++ [subSum])
              else
                ret (children, Some (PanicInterfaceConversion (typeName sharded)))
          end
      end
  end.

(** [splitSum] forms the parent and child legs of a parallel query.
    The loop [for i := 0; i < summer.shards; i++] runs
    [max(shards, 0)] times.  A panic of [Add] ends the call; it is handed
    on in the error position, as the panic of the type assertion is. *)
Definition splitSum (summer : shardSummer) (expr : AggregateExpr.t Node)
  : M (AggregateExpr.t Node * list Node * option error) :=
  let (parent, mkChild) := splitSum_shape expr in
  ' (children, err) <-
    splitSum_children summer expr mkChild (Z.to_nat (shards summer)) 0 [] ;;
  match err with
  | Some err => ret (parent, children, Some err)
  | None =>
      panic <- Add (shards summer) ;;
      match panic with
      | Some p => ret (parent, children, Some p)
      | None => ret (parent, children, None)
      end
  end.

(** [shardSum] contains the logic for how we split/stitch legs of a
    parallelized sum query. *)
Definition shardSum (summer : shardSummer) (expr : AggregateExpr.t Node)
  : M (result Node) :=
  ' (parent, subSums, err) <- splitSum summer expr ;;
  match err with
  | Some err => ret (Err err)
  | None =>
      match squash summer subSums with
      | Err err => ret (Err err)
      | OK combinedSums =>
          ret (OK (Aggregate (AggregateExpr.set_Expr parent combinedSums)))
      end
  end.

(** [MapNode]: shardSummer expands a query AST by sharding and
    re-summing when possible.  The result is the Go triple
    [(node, done, err)] with [(node, err)] folded into a [result]. *)
Definition MapNode (summer : shardSummer) (node : Node) : M (result Node * bool) :=
  match node with
  | Aggregate n =>
      if CanParallelize node && ItemType_eqb (AggregateExpr.Op n) SUM
      then r <- shardSum summer n ;; ret (r, true)
      else ret (OK node, false)
  | Vector n =>
      match currentShard summer with
      | Some cur => ret (shardVectorSelector cur (shards summer) n, true)
      | None => ret (OK node, true)
      end
  | Matrix n =>
      match currentShard summer with
      | Some cur => ret (shardMatrixSelector cur (shards summer) n, true)
      | None => ret (OK node, true)
      end
  | _ => ret (OK node, false)
  end.

End Mapper.

(** Map a list of children from left to right, stopping at the first
    error. *)
Fixpoint mapNodes (f : Node -> M (result Node)) (nodes : list Node)
  : M (result (list Node)) :=
  match nodes with
  | [] => ret (OK [])
  | node :: rest =>
      r <- f node ;;
      match r with
      | Err err => ret (Err err)
      | OK mapped =>
          rs <- mapNodes f rest ;;
          match rs with
          | Err err => ret (Err err)
          | OK mappedRest => ret (OK (mapped :: mappedRest))
          end
      end
  end.

(** Modelled from the spec: the generic tree mapper
    ([NewASTNodeMapper(summer).Map]; its file is not among the sources).
    The rewrite function is applied to the node first; an error aborts the
    traversal; [done = true] returns the rewritten node as it is;
    [done = false] recurses into the children and rebuilds the node with
    the same shape.  The inner expression is the child of an aggregate.
    [fuel] bounds the depth of the walk, nested splits included. *)
Fixpoint Map (fuel : nat) (summer : shardSummer) (node : Node) : M (result Node) :=
  match fuel with
  | O => ret (Err ErrOutOfFuel)
  | S fuel' =>
      ' (r, done) <- MapNode (Map fuel') summer node ;;
      match r with
      | Err err => ret (Err err)
      | OK mapped =>
          if (done : bool) then ret (OK mapped)
          else
            match mapped with
            | Aggregate n =>
                r' <- Map fuel' summer (AggregateExpr.Expr n) ;;
                match r' with
                | Err err => ret (Err err)
                | OK expr =>
                    ret (OK (Aggregate (AggregateExpr.set_Expr n expr)))
                end
            | Other kind children =>
                rs <- mapNodes (Map fuel' summer) children ;;
                match rs with
                | Err err => ret (Err err)
                | OK children' => ret (OK (Other kind children'))
                end
            | _ => ret (OK mapped)
            end
      end
  end.

End Externals.

(** ** Concrete collaborators and queries used to run the definitions *)

Module Example.

(** A cloner that always succeeds: in this embedding a deep copy of a
    tree is the tree. *)
Definition cloneOK (n : Node) : result Node := OK n.


(** A combiner that embeds the legs in one node. *)
Definition squashLegs : squasher := fun legs => OK (Other "*promql.Call" legs).

(** A combiner that fails. *)
Definition squashFails : squasher := fun _ => Err (ErrExternal "combiner failed").

Definition opts : CounterOpts :=
  {| Namespace := "cortex";
     CounterName := "frontend_sharded_queries_total";
     Help := "Total number of sharded queries" |}.

Definition summer (n : Z) (sq : squasher) : shardSummer :=
  {| shards := n; currentShard := None; squash := sq; shardedQueries := opts |}.

(** [metric{job="x"}] *)
Definition selector : VectorSelector.t :=
  {| VectorSelector.Name := "metric";
     VectorSelector.Offset := 0;
     VectorSelector.LabelMatchers :=
       [ {| Type_ := MatchEqual; Name := "job"; Value := "x" |} ];
     VectorSelector.PosRange := {| Start := 4; End_ := 19 |} |}.

Definition agg (op : ItemType) (without : bool) (grouping : list string) (e : Node)
  : AggregateExpr.t Node :=
  {| AggregateExpr.Op := op;
     AggregateExpr.Expr := e;
     AggregateExpr.Param := Nil;
     AggregateExpr.Grouping := grouping;
     AggregateExpr.Without := without;
     AggregateExpr.PosRange := {| Start := 0; End_ := 20 |} |}.

(** [sum(metric{job="x"})] *)
Definition sumQuery : AggregateExpr.t Node := agg SUM false [] (Vector selector).

(** [sum by (foo) (metric{job="x"})] *)
Definition sumByQuery : AggregateExpr.t Node := agg SUM false ["foo"%string] (Vector selector).

(** [sum without (foo) (metric{job="x"})] *)
Definition sumWithoutQuery : AggregateExpr.t Node :=
  agg SUM true ["foo"%string] (Vector selector).

(** [metric{job="x"}[5m]] *)
Definition matrix : MatrixSelector.t Node :=
  {| MatrixSelector.VectorSelector := Vector selector;
     MatrixSelector.Range := 300000000000;
     MatrixSelector.EndPos := 23 |}.

(** Matcher lists: the first equality matcher on the shard label sits at
    index 2 behind a regular-expression matcher on the same label; the
    first one does not decode; none at all. *)
Definition matchersThird : list Matcher :=
  [ {| Type_ := MatchEqual; Name := "job"; Value := "x" |};
    {| Type_ := MatchRegexp; Name := ShardLabel; Value := "0_of_4" |};
    {| Type_ := MatchEqual; Name := ShardLabel; Value := "2_of_4" |};
    {| Type_ := MatchEqual; Name := ShardLabel; Value := "3_of_4" |} ].

Definition matchersBad : list Matcher :=
  [ {| Type_ := MatchEqual; Name := ShardLabel; Value := "4_of_4" |};
    {| Type_ := MatchEqual; Name := ShardLabel; Value := "2_of_4" |} ].

Definition matchersNone : list Matcher :=
  [ {| Type_ := MatchEqual; Name := "job"; Value := "x" |} ].

(** A registerer that accepts every counter, and one that refuses. *)
Definition registererOK : Registerer := {| Register := fun _ => None |}.


(** The mapper with every collaborator fixed. *)
Definition run (fuel : nat) : shardSummer -> Node -> M (result Node) :=
  Map (fun _ => true) (fun _ => true) cloneOK fuel.

End Example.

(** * Vocabulary of the properties *)

(** ** Vocabulary for the selector and dispatch properties *)

(** The matcher that pins a selector to shard [i] of [n]. *)
Definition shardMatcherOf (i n : Z) : Matcher :=
  {| Type_ := MatchEqual; Name := ShardLabel; Value := String_ {| Shard := i; Of := n |} |}.

Definition is_aggregate (n : Node) : bool :=
  match n with Aggregate _ => true | _ => false end.

Definition is_selector (n : Node) : bool :=
  match n with Vector _ | Matrix _ => true | _ => false end.

(** ** Vocabulary for the split properties *)

(** The aggregate handed to [mkChild]: operator and mapped clone set,
    every other field at its zero value. *)
Definition freshChild (expr : AggregateExpr.t Node) (sharded : Node) : AggregateExpr.t Node :=
  {| AggregateExpr.Op := AggregateExpr.Op expr;
     AggregateExpr.Expr := sharded;
     AggregateExpr.Param := Nil;
     AggregateExpr.Grouping := [];
     AggregateExpr.Without := false;
     AggregateExpr.PosRange := zeroPositionRange |}.


(** A leg of the given shape: an aggregate with the operator of [expr],
    the grouping labels [grouping] and the by/without flag [without]. *)
Definition child_shape (expr : AggregateExpr.t Node) (grouping : list string)
    (without : bool) (child : Node) : Prop :=
  exists a, child = Aggregate a
            /\ AggregateExpr.Op a = AggregateExpr.Op expr
            /\ AggregateExpr.Grouping a = grouping
            /\ AggregateExpr.Without a = without.

(** A mapper that returns every node as it is. *)
Definition idMapper : shardSummer -> Node -> M (result Node) := fun _ node => ret (OK node).

(** ** Vocabulary for the shard-matcher search *)

(** An equality matcher on the reserved shard label. *)
Definition is_shard_matcher (m : Matcher) : Prop :=
  Name m = ShardLabel /\ Type_ m = MatchEqual.

(** What [ShardFromMatchers] returns for a shard matcher found at index [i]. *)
Definition found_at (i : Z) (m : Matcher) : option ShardAnnotation * Z * option error :=
  match ParseShard (Value m) with
  | OK shard => (Some shard, i, None)
  | Err e => (None, i, Some e)
  end.

(** ** Vocabulary for the codec: languages and decimal notation *)

(** The language of a pattern. *)
Inductive matches : regexp.regex -> string -> Prop :=
| MEps : matches regexp.Eps EmptyString
| MClass lo hi c :
    regexp.in_class lo hi c = true -> matches (regexp.Class lo hi) (String c EmptyString)
| MLit c : matches (regexp.Lit c) (String c EmptyString)
| MCat r1 r2 s1 s2 :
    matches r1 s1 -> matches r2 s2 -> matches (regexp.Cat r1 r2) (s1 ++ s2)%string
| MAltL r1 r2 s : matches r1 s -> matches (regexp.Alt r1 r2) s
| MAltR r1 r2 s : matches r2 s -> matches (regexp.Alt r1 r2) s
| MStar0 r : matches (regexp.Star r) EmptyString
| MStarS r s1 s2 :
    matches r s1 -> matches (regexp.Star r) s2 -> matches (regexp.Star r) (s1 ++ s2)%string.

(** Every byte is a decimal digit. *)
Fixpoint all_digits (s : string) : bool :=
  match s with
  | EmptyString => true
  | String c s' => strconv.is_digit c && all_digits s'
  end.

(** [[0-9]+]: a non-empty run of decimal digits. *)
Definition decimal (s : string) : Prop := s <> EmptyString /\ all_digits s = true.

(** The value of a run of digits read in base ten, starting from [n]. *)
Fixpoint decimal_value_from (n : Z) (s : string) : Z :=
  match s with
  | EmptyString => n
  | String c s' => decimal_value_from (n * 10 + strconv.digit_val c) s'
  end.

Definition decimal_value (s : string) : Z := decimal_value_from 0 s.

(** [^[0-9]+_of_[0-9]+$], read off the spec: the whole string is a run of
    digits, the bytes [_of_], and a run of digits. *)
Definition shard_label_grammar (s : string) : Prop :=
  exists a b, decimal a /\ decimal b /\ s = (a ++ "_of_" ++ b)%string.

(** ** The rest of [shard_summer.go] *)

(** [labels.Label]: a name and a value. *)
Module Label.
Record t : Type := { Name : string; Value : string }.
End Label.

(** [Label] generates the ShardAnnotation as a label. *)
Definition Label_ (shard : ShardAnnotation) : Label.t :=
  {| Label.Name := ShardLabel;
     Label.Value := String_ shard |}.

(** ** Vocabulary for the further properties *)

(** No byte of the string is an underscore. *)
Fixpoint no_underscore (s : string) : bool :=
  match s with
  | EmptyString => true
  | String c s' => negb (Ascii.eqb c "_") && no_underscore s'
  end.

(** The invariant of a shard annotation whose fields are Go [int]s. *)
Definition valid_annotation (a : ShardAnnotation) : Prop :=
  0 <= Shard a < Of a /\ Of a <= strconv.maxInt.

(** A mapper that never takes anything back from the counter: whatever it
    does, the amounts recorded before are still there, in front. *)
Definition only_appends (Map : shardSummer -> Node -> M (result Node)) : Prop :=
  forall summer node c, exists ev, snd (Map summer node c) = (c ++ ev)%list.

Definition is_vector (n : Node) : bool :=
  match n with Vector _ => true | _ => false end.

(** * Properties *)

(** ** The state monad *)

Lemma bind_ret_l {A B} (a : A) (k : A -> M B) (c : Counter) :
  bind (ret a) k c = k a c.
Proof. reflexivity. Qed.

Lemma bind_run {A B} (m : M A) (k : A -> M B) (c : Counter) :
  bind m k c = k (fst (m c)) (snd (m c)).
Proof. unfold bind. destruct (m c); reflexivity. Qed.

(** ** Selectors *)

Section SelectorFacts.

Variable regexp_compiles : string -> bool.

Lemma NewMatcher_equal (n v : string) :
  NewMatcher regexp_compiles MatchEqual n v
  = OK {| Type_ := MatchEqual; Name := n; Value := v |}.
Proof. reflexivity. Qed.

Lemma shardVectorSelector_eq (cur n : Z) (sel : VectorSelector.t) :
  shardVectorSelector regexp_compiles cur n sel
  = OK (Vector
          {| VectorSelector.Name := VectorSelector.Name sel;
             VectorSelector.Offset := VectorSelector.Offset sel;
             VectorSelector.LabelMatchers :=
               shardMatcherOf cur n :: VectorSelector.LabelMatchers sel;
             VectorSelector.PosRange := zeroPositionRange |}).
Proof. unfold shardVectorSelector. rewrite NewMatcher_equal. reflexivity. Qed.

Lemma shardMatrixSelector_vector (cur n : Z) (vs : VectorSelector.t) (range : Z) (endPos : Pos) :
  shardMatrixSelector regexp_compiles cur n
    {| MatrixSelector.VectorSelector := Vector vs;
       MatrixSelector.Range := range;
       MatrixSelector.EndPos := endPos |}
  = OK (Matrix
          {| MatrixSelector.VectorSelector :=
               Vector
                 {| VectorSelector.Name := VectorSelector.Name vs;
                    VectorSelector.Offset := VectorSelector.Offset vs;
                    VectorSelector.LabelMatchers :=
                      shardMatcherOf cur n :: VectorSelector.LabelMatchers vs;
                    VectorSelector.PosRange := VectorSelector.PosRange vs |};
             MatrixSelector.Range := range;
             MatrixSelector.EndPos := endPos |}).
Proof. unfold shardMatrixSelector. rewrite NewMatcher_equal. reflexivity. Qed.

End SelectorFacts.

(** C4.  A vector selector visited while the summer is bound to shard [i]
    comes back as a new selector with the same name and offset and with the
    shard matcher (reserved label, equality, [Encode(i, shards)]) in front of
    the original matchers, [done = true], counter untouched; while the
    summer is unbound the selector comes back as it is, [done = true]. *)
Theorem MapNode_vector_selector :
  forall regexp_compiles CanParallelize CloneNode Map
         (n : Z) (sq : squasher) (o : CounterOpts) (i : Z)
         (sel : VectorSelector.t) (c : Counter),
    MapNode regexp_compiles CanParallelize CloneNode Map
      {| shards := n; currentShard := Some i; squash := sq; shardedQueries := o |}
      (Vector sel) c
    = ((OK (Vector
              {| VectorSelector.Name := VectorSelector.Name sel;
                 VectorSelector.Offset := VectorSelector.Offset sel;
                 VectorSelector.LabelMatchers :=
                   {| Type_ := MatchEqual;
                      Name := ShardLabel;
                      Value := String_ {| Shard := i; Of := n |} |}
                   :: VectorSelector.LabelMatchers sel;
                 VectorSelector.PosRange := zeroPositionRange |}),
        true), c)
    /\ MapNode regexp_compiles CanParallelize CloneNode Map
         {| shards := n; currentShard := None; squash := sq; shardedQueries := o |}
         (Vector sel) c
       = ((OK (Vector sel), true), c).
Proof.
  intros. split.
  - cbn [MapNode currentShard shards]. rewrite shardVectorSelector_eq. reflexivity.
  - reflexivity.
Qed.

(** C5.  The selector sharder on a matrix selector: when the inner selector
    is a plain vector selector the result is a new matrix selector whose
    inner selector has the shard matcher in front, with the inner position
    range, the range and the end position kept; for every other inner node
    the operation fails with the "invalid selector type" error naming the
    inner node's type. *)
Theorem shardMatrixSelector_spec :
  forall regexp_compiles (cur n : Z) (sel : MatrixSelector.t Node),
    match MatrixSelector.VectorSelector sel with
    | Vector vs =>
        shardMatrixSelector regexp_compiles cur n sel
        = OK (Matrix
                {| MatrixSelector.VectorSelector :=
                     Vector
                       {| VectorSelector.Name := VectorSelector.Name vs;
                          VectorSelector.Offset := VectorSelector.Offset vs;
                          VectorSelector.LabelMatchers :=
                            shardMatcherOf cur n :: VectorSelector.LabelMatchers vs;
                          VectorSelector.PosRange := VectorSelector.PosRange vs |};
                   MatrixSelector.Range := MatrixSelector.Range sel;
                   MatrixSelector.EndPos := MatrixSelector.EndPos sel |})
    | other =>
        shardMatrixSelector regexp_compiles cur n sel
        = Err (ErrInvalidSelectorType (typeName other))
    end.
Proof.
  intros rc cur n [inner range endPos]. cbn [MatrixSelector.VectorSelector].
  destruct inner; reflexivity.
Qed.

(** C9.  A plain vector selector rewritten for a shard gets the zero
    position range whatever the original's was; rewritten inside a matrix
    selector, the inner selector keeps its position range and the matrix
    keeps its end position. *)
Theorem selector_position_metadata :
  forall regexp_compiles (cur n : Z) (vs : VectorSelector.t) (range : Z) (endPos : Pos),
    (exists vs',
        shardVectorSelector regexp_compiles cur n vs = OK (Vector vs')
        /\ VectorSelector.PosRange vs' = zeroPositionRange)
    /\ (exists vs' ms',
           shardMatrixSelector regexp_compiles cur n
             {| MatrixSelector.VectorSelector := Vector vs;
                MatrixSelector.Range := range;
                MatrixSelector.EndPos := endPos |}
           = OK (Matrix ms')
           /\ MatrixSelector.VectorSelector ms' = Vector vs'
           /\ VectorSelector.PosRange vs' = VectorSelector.PosRange vs
           /\ MatrixSelector.EndPos ms' = endPos).
Proof.
  intros. split.
  - eexists. rewrite shardVectorSelector_eq. split; reflexivity.
  - do 2 eexists. rewrite shardMatrixSelector_vector.
    split; [reflexivity|]. cbn. repeat split.
Qed.

(** ** Node dispatch *)

(** C3.  [MapNode] on an aggregate whose operator is [sum] and which the
    parallelizability predicate approves yields the outcome of the split,
    with [done = true]; on every other aggregate, and on every node that is
    neither an aggregate nor a selector, it yields the node itself with
    [done = false] and leaves the counter alone. *)
Theorem MapNode_dispatch :
  forall regexp_compiles CanParallelize CloneNode Map
         (summer : shardSummer) (c : Counter),
    (forall n,
        CanParallelize (Aggregate n) = true ->
        AggregateExpr.Op n = SUM ->
        MapNode regexp_compiles CanParallelize CloneNode Map summer (Aggregate n) c
        = ((fst (shardSum CloneNode Map summer n c), true),
           snd (shardSum CloneNode Map summer n c)))
    /\ (forall n,
           CanParallelize (Aggregate n) = false \/ AggregateExpr.Op n <> SUM ->
           MapNode regexp_compiles CanParallelize CloneNode Map summer (Aggregate n) c
           = ((OK (Aggregate n), false), c))
    /\ (forall node,
           is_aggregate node = false ->
           is_selector node = false ->
           MapNode regexp_compiles CanParallelize CloneNode Map summer node c
           = ((OK node, false), c)).
Proof.
  intros rc CanP Clone Map summer c. split; [|split].
  - intros n Hp Hop. cbn [MapNode]. rewrite Hp, Hop. cbn [ItemType_eqb andb].
    rewrite bind_run. reflexivity.
  - intros n [Hp | Hop]; cbn [MapNode].
    + rewrite Hp. reflexivity.
    + destruct (CanP (Aggregate n)); [|reflexivity].
      destruct (AggregateExpr.Op n); try reflexivity. congruence.
  - intros node Ha Hs. destruct node; try reflexivity; discriminate.
Qed.

Lemma MapNode_dispatch_witness :
  MapNode (fun _ => true) (fun _ => true) Example.cloneOK (Example.run 3)
    (Example.summer 2 Example.squashLegs) (Aggregate Example.sumQuery) []
  = ((fst (shardSum Example.cloneOK (Example.run 3)
             (Example.summer 2 Example.squashLegs) Example.sumQuery []), true), [2])
  /\ MapNode (fun _ => true) (fun _ => true) Example.cloneOK (Example.run 3)
       (Example.summer 2 Example.squashLegs)
       (Aggregate (Example.agg COUNT false [] (Vector Example.selector))) []
     = ((OK (Aggregate (Example.agg COUNT false [] (Vector Example.selector))), false), [])
  /\ MapNode (fun _ => true) (fun _ => true) Example.cloneOK (Example.run 3)
       (Example.summer 2 Example.squashLegs)
       (Other "*promql.NumberLiteral" []) []
     = ((OK (Other "*promql.NumberLiteral" []), false), []).
Proof.
  destruct (MapNode_dispatch (fun _ => true) (fun _ => true) Example.cloneOK
              (Example.run 3) (Example.summer 2 Example.squashLegs) [])
    as (Hsum & Hagg & Hother).
  split; [|split].
  - apply (Hsum Example.sumQuery); reflexivity.
  - apply (Hagg (Example.agg COUNT false [] (Vector Example.selector))).
    right. discriminate.
  - apply (Hother (Other "*promql.NumberLiteral" [])); reflexivity.
Defined.

(** ** Splitting a sum *)

Section SplitFacts.

Variable CloneNode : Node -> result Node.
Variable Map : shardSummer -> Node -> M (result Node).

Lemma splitSum_children_S summer expr mkChild n i children c :
  splitSum_children CloneNode Map summer expr mkChild (S n) i children c
  = match CloneNode (AggregateExpr.Expr expr) with
    | Err err => ((children, Some err), c)
    | OK cloned =>
        match Map (CopyWithCurShard summer i) cloned c with
        | (Err err, c') => ((children, Some err), c')
        | (OK sharded, c') =>
            if implements_Expr sharded
            then splitSum_children CloneNode Map summer expr mkChild n (i + 1)
                   (children ++ [mkChild (freshChild expr sharded)]) c'
            else ((children, Some (PanicInterfaceConversion (typeName sharded))), c')
        end
    end.
Proof.
  cbn [splitSum_children].
  destruct (CloneNode (AggregateExpr.Expr expr)) as [cloned | err]; [|reflexivity].
  unfold bind. destruct (Map (CopyWithCurShard summer i) cloned c) as [[sharded | err] c'];
    [|reflexivity].
  destruct (implements_Expr sharded); reflexivity.
Qed.

(** [splitSum] and [shardSum] in terms of the outcome of the loop. *)
Lemma splitSum_eq summer expr c :
  splitSum CloneNode Map summer expr c
  = let r := splitSum_children CloneNode Map summer expr (snd (splitSum_shape expr))
               (Z.to_nat (shards summer)) 0 [] c in
    match snd (fst r) with
    | Some err => ((fst (splitSum_shape expr), fst (fst r), Some err), snd r)
    | None =>
        if shards summer <? 0
        then ((fst (splitSum_shape expr), fst (fst r), Some PanicCounterDecrease), snd r)
        else ((fst (splitSum_shape expr), fst (fst r), None),
              (snd r ++ [shards summer])%list)
    end.
Proof.
  unfold splitSum. destruct (splitSum_shape expr) as [parent mkChild].
  cbn [fst snd]. unfold bind.
  destruct (splitSum_children CloneNode Map summer expr mkChild (Z.to_nat (shards summer)) 0 [] c)
    as [[children [err|]] c1]; [reflexivity|].
  unfold Add. cbn [fst snd]. destruct (shards summer <? 0); reflexivity.
Qed.

Lemma shardSum_eq summer expr c :
  shardSum CloneNode Map summer expr c
  = let r := splitSum CloneNode Map summer expr c in
    match snd (fst r) with
    | Some err => (Err err, snd r)
    | None =>
        match squash summer (snd (fst (fst r))) with
        | Err err => (Err err, snd r)
        | OK combined =>
            (OK (Aggregate (AggregateExpr.set_Expr (fst (fst (fst r))) combined)), snd r)
        end
    end.
Proof.
  unfold shardSum, bind.
  destruct (splitSum CloneNode Map summer expr c) as [[[parent children] [err|]] c1]; cbn [fst snd].
  - reflexivity.
  - destruct (squash summer children); reflexivity.
Qed.

Local Abbreviation splitSum_children := (splitSum_children CloneNode Map).
Local Abbreviation splitSum := (splitSum CloneNode Map).
Local Abbreviation shardSum := (shardSum CloneNode Map).

(** Every leg is [mkChild] applied to a fresh aggregate: a property of
    all such nodes holds of all the children. *)
Lemma splitSum_children_Forall (P : Node -> Prop) summer expr mkChild :
  (forall sharded, P (mkChild (freshChild expr sharded))) ->
  forall n i children c,
    Forall P children ->
    Forall P (fst (fst (splitSum_children summer expr mkChild n i children c))).
Proof.
  intros HP. induction n as [|n IH]; intros i children c Hc.
  - exact Hc.
  - rewrite splitSum_children_S.
    destruct (CloneNode (AggregateExpr.Expr expr)) as [cloned | err]; [|exact Hc].
    destruct (Map (CopyWithCurShard summer i) cloned c) as [[sharded | err] c']; [|exact Hc].
    destruct (implements_Expr sharded); [|exact Hc].
    apply IH. apply Forall_app. split; [exact Hc|]. constructor; [apply HP|constructor].
Qed.

(** When the loop finishes without an error it has added one leg per
    iteration. *)
Lemma splitSum_children_length summer expr mkChild :
  forall n i children c,
    snd (fst (splitSum_children summer expr mkChild n i children c)) = None ->
    List.length (fst (fst (splitSum_children summer expr mkChild n i children c)))
    = (List.length children + n)%nat.
Proof.
  induction n as [|n IH]; intros i children c.
  - cbn. intros _. lia.
  - rewrite splitSum_children_S.
    destruct (CloneNode (AggregateExpr.Expr expr)) as [cloned | err]; [|discriminate].
    destruct (Map (CopyWithCurShard summer i) cloned c) as [[sharded | err] c']; [|discriminate].
    destruct (implements_Expr sharded); [|discriminate].
    intros H. rewrite (IH _ _ _ H). rewrite length_app. cbn. lia.
Qed.



(** The counter only grows at its end when the mapper only appends. *)
Lemma splitSum_children_appends summer expr mkChild :
  (forall s node c0, exists ev, snd (Map s node c0) = (c0 ++ ev)%list) ->
  forall n i children c,
    exists ev, snd (splitSum_children summer expr mkChild n i children c) = (c ++ ev)%list.
Proof.
  intros Hmap. induction n as [|n IH]; intros i children c.
  - exists []. cbn. now rewrite app_nil_r.
  - rewrite splitSum_children_S.
    destruct (CloneNode (AggregateExpr.Expr expr)) as [cloned | err].
    2:{ exists []. cbn. now rewrite app_nil_r. }
    destruct (Hmap (CopyWithCurShard summer i) cloned c) as [ev Hev].
    destruct (Map (CopyWithCurShard summer i) cloned c) as [[sharded | err] c'];
      cbn in Hev; subst c'.
    2:{ exists ev. reflexivity. }
    destruct (implements_Expr sharded).
    + destruct (IH (i + 1) (children ++ [mkChild (freshChild expr sharded)])%list
                  (c ++ ev)%list) as [ev' Hev'].
      exists (ev ++ ev')%list. rewrite Hev'. now rewrite app_assoc.
    + exists ev. reflexivity.
Qed.

End SplitFacts.

Section SplitClaims.

Variable CloneNode : Node -> result Node.
Variable Map : shardSummer -> Node -> M (result Node).

Local Abbreviation splitSum_children := (splitSum_children CloneNode Map).
Local Abbreviation splitSum := (splitSum CloneNode Map).
Local Abbreviation shardSum := (shardSum CloneNode Map).


Lemma splitSum_shape_parent_fields (expr : AggregateExpr.t Node) :
  AggregateExpr.Op (fst (splitSum_shape expr)) = AggregateExpr.Op expr
  /\ AggregateExpr.Param (fst (splitSum_shape expr)) = AggregateExpr.Param expr.
Proof.
  unfold splitSum_shape. destruct (AggregateExpr.Without expr); [split; reflexivity|].
  destruct (0 <? _)%nat; split; reflexivity.
Qed.

Lemma splitSum_shape_without (expr : AggregateExpr.t Node) :
  AggregateExpr.Without expr = true ->
  AggregateExpr.Grouping (fst (splitSum_shape expr)) = [ShardLabel]
  /\ AggregateExpr.Without (fst (splitSum_shape expr)) = true
  /\ forall sharded,
       child_shape expr (AggregateExpr.Grouping expr) true
         (snd (splitSum_shape expr) (freshChild expr sharded)).
Proof.
  intros Hw. unfold splitSum_shape. rewrite Hw. cbn [fst snd].
  split; [reflexivity|]. split; [reflexivity|].
  intros sharded. eexists. split; [reflexivity|]. cbn. auto.
Qed.

Lemma splitSum_shape_by (expr : AggregateExpr.t Node) :
  AggregateExpr.Without expr = false ->
  AggregateExpr.Grouping expr <> [] ->
  AggregateExpr.Grouping (fst (splitSum_shape expr)) = AggregateExpr.Grouping expr
  /\ AggregateExpr.Without (fst (splitSum_shape expr)) = false
  /\ forall sharded,
       child_shape expr (AggregateExpr.Grouping expr ++ [ShardLabel])%list false
         (snd (splitSum_shape expr) (freshChild expr sharded)).
Proof.
  intros Hw HL. unfold splitSum_shape. rewrite Hw.
  destruct (AggregateExpr.Grouping expr) as [|l L] eqn:HG; [congruence|].
  cbn [List.length Nat.ltb Nat.leb fst snd].
  split; [reflexivity|]. split; [reflexivity|].
  intros sharded. eexists. split; [reflexivity|]. cbn. auto.
Qed.

Lemma splitSum_shape_plain (expr : AggregateExpr.t Node) :
  AggregateExpr.Without expr = false ->
  AggregateExpr.Grouping expr = [] ->
  AggregateExpr.Grouping (fst (splitSum_shape expr)) = [ShardLabel]
  /\ AggregateExpr.Without (fst (splitSum_shape expr)) = true
  /\ forall sharded,
       child_shape expr [ShardLabel] false
         (snd (splitSum_shape expr) (freshChild expr sharded)).
Proof.
  intros Hw HL. unfold splitSum_shape. rewrite Hw, HL.
  cbn [List.length Nat.ltb Nat.leb fst snd].
  split; [reflexivity|]. split; [reflexivity|].
  intros sharded. eexists. split; [reflexivity|]. cbn. auto.
Qed.

Lemma splitSum_parent (summer : shardSummer) (expr : AggregateExpr.t Node) (c : Counter) :
  fst (fst (fst (splitSum summer expr c))) = fst (splitSum_shape expr).
Proof.
  rewrite splitSum_eq. cbv zeta.
  destruct (snd (fst (splitSum_children _ _ _ _ _ _ _))); [reflexivity|].
  destruct (shards summer <? 0); reflexivity.
Qed.

Lemma splitSum_legs (summer : shardSummer) (expr : AggregateExpr.t Node) (c : Counter) :
  snd (fst (fst (splitSum summer expr c)))
  = fst (fst (splitSum_children summer expr (snd (splitSum_shape expr))
                (Z.to_nat (shards summer)) 0 [] c)).
Proof.
  rewrite splitSum_eq. cbv zeta.
  destruct (snd (fst (splitSum_children _ _ _ _ _ _ _))); [reflexivity|].
  destruct (shards summer <? 0); reflexivity.
Qed.

(** [splitSum] reports no error exactly when every leg was built and the
    counter took the amount. *)
Lemma splitSum_err (summer : shardSummer) (expr : AggregateExpr.t Node) (c : Counter) :
  snd (fst (splitSum summer expr c)) = None
  <-> snd (fst (splitSum_children summer expr (snd (splitSum_shape expr))
                  (Z.to_nat (shards summer)) 0 [] c)) = None
      /\ 0 <= shards summer.
Proof.
  rewrite splitSum_eq. cbv zeta.
  destruct (snd (fst (splitSum_children _ _ _ _ _ _ _))).
  - cbn. split; [discriminate | intros [H _]; discriminate].
  - destruct (Z.ltb_spec (shards summer) 0); cbn.
    + split; [discriminate | intros [_ H']; lia].
    + split; [intros _; split; [reflexivity | assumption] | reflexivity].
Qed.

(** When the cloner succeeds and the mapper returns an expression for
    every shard still to come, the loop builds every leg. *)
Lemma splitSum_children_all_legs summer expr mkChild cloned :
  CloneNode (AggregateExpr.Expr expr) = OK cloned ->
  forall n i children c,
    (forall j c0, i <= j < i + Z.of_nat n ->
       exists sharded,
         fst (Map (CopyWithCurShard summer j) cloned c0) = OK sharded
         /\ implements_Expr sharded = true) ->
    snd (fst (splitSum_children summer expr mkChild n i children c)) = None.
Proof.
  intros Hclone. induction n as [|n IH]; intros i children c Hmap; [reflexivity|].
  rewrite splitSum_children_S, Hclone.
  destruct (Hmap i c ltac:(lia)) as (sharded & Hs & Himpl).
  destruct (Map (CopyWithCurShard summer i) cloned c) as [r c'].
  cbn [fst] in Hs. subst r. rewrite Himpl.
  apply IH. intros j c0 Hj. apply Hmap. lia.
Qed.

(** C2.  The grouping shapes a split produces are fixed by the grouping
    clause of the original aggregate [expr], with [L] its label list:
    - [without(L)]: the parent is [without(shardLabel)], every child is
      [without(L)];
    - [by(L)], [L] non-empty: the parent is [by(L)], every child is
      [by(L, shardLabel)];
    - no grouping: the parent is [without(shardLabel)], every child is
      [by(shardLabel)].
    Every child is an aggregate with the original operator.  The children
    are there: when the cloner succeeds and the mapper returns an
    expression for every shard, [splitSum] returns one child per shard,
    and no error when the shard count is not negative.  A parent that
    [shardSum] returns has the grouping shape of the parent of [splitSum],
    the original operator and parameter, the combiner's result as inner
    expression, over one child per shard. *)
Theorem splitSum_grouping_shapes :
  forall (summer : shardSummer) (expr : AggregateExpr.t Node) (c : Counter),
    let parent := fst (fst (fst (splitSum summer expr c))) in
    let children := snd (fst (fst (splitSum summer expr c))) in
    let L := AggregateExpr.Grouping expr in
    (AggregateExpr.Without expr = true ->
       AggregateExpr.Grouping parent = [ShardLabel]
       /\ AggregateExpr.Without parent = true
       /\ Forall (child_shape expr L true) children)
    /\ (AggregateExpr.Without expr = false -> L <> [] ->
          AggregateExpr.Grouping parent = L
          /\ AggregateExpr.Without parent = false
          /\ Forall (child_shape expr (L ++ [ShardLabel])%list false) children)
    /\ (AggregateExpr.Without expr = false -> L = [] ->
          AggregateExpr.Grouping parent = [ShardLabel]
          /\ AggregateExpr.Without parent = true
          /\ Forall (child_shape expr [ShardLabel] false) children)
    /\ (forall cloned,
          CloneNode (AggregateExpr.Expr expr) = OK cloned ->
          (forall i c0, 0 <= i < shards summer ->
             exists sharded,
               fst (Map (CopyWithCurShard summer i) cloned c0) = OK sharded
               /\ implements_Expr sharded = true) ->
          List.length children = Z.to_nat (shards summer)
          /\ (0 <= shards summer -> snd (fst (splitSum summer expr c)) = None))
    /\ (forall p c', shardSum summer expr c = (OK p, c') ->
          exists a, p = Aggregate a
                    /\ AggregateExpr.Op a = AggregateExpr.Op expr
                    /\ AggregateExpr.Param a = AggregateExpr.Param expr
                    /\ AggregateExpr.Grouping a = AggregateExpr.Grouping parent
                    /\ AggregateExpr.Without a = AggregateExpr.Without parent
                    /\ squash summer children = OK (AggregateExpr.Expr a)
                    /\ List.length children = Z.to_nat (shards summer)).
Proof.
  intros summer expr c parent children L.
  assert (Hparent : parent = fst (splitSum_shape expr)) by apply splitSum_parent.
  assert (Hchildren := splitSum_legs summer expr c). fold children in Hchildren.
  assert (Hall : forall P : Node -> Prop,
             (forall sharded, P (snd (splitSum_shape expr) (freshChild expr sharded))) ->
             Forall P children).
  { intros P HP. rewrite Hchildren.
    apply splitSum_children_Forall; [exact HP | constructor]. }
  split; [|split; [|split; [|split]]].
  - intros Hw. destruct (splitSum_shape_without expr Hw) as (Hg & Hwo & Hch).
    rewrite Hparent. auto.
  - intros Hw HL. destruct (splitSum_shape_by expr Hw HL) as (Hg & Hwo & Hch).
    rewrite Hparent. auto.
  - intros Hw HL. destruct (splitSum_shape_plain expr Hw HL) as (Hg & Hwo & Hch).
    rewrite Hparent. auto.
  - intros cloned Hclone Hmap.
    assert (Hnone : snd (fst (splitSum_children summer expr (snd (splitSum_shape expr))
                                (Z.to_nat (shards summer)) 0 [] c)) = None).
    { apply (splitSum_children_all_legs summer expr _ cloned Hclone).
      intros j c0 Hj. apply Hmap. lia. }
    split.
    + rewrite Hchildren. rewrite splitSum_children_length; [reflexivity | exact Hnone].
    + intros Hpos. apply splitSum_err. split; assumption.
  - intros p c' Hsum. rewrite shardSum_eq in Hsum. cbv zeta in Hsum.
    fold parent children in Hsum.
    destruct (snd (fst (splitSum summer expr c))) as [err|] eqn:Herr; [discriminate|].
    destruct (squash summer children) as [combined|] eqn:Hsq; [|discriminate].
    injection Hsum as <- <-. eexists. split; [reflexivity|].
    cbn [AggregateExpr.set_Expr AggregateExpr.Op AggregateExpr.Param AggregateExpr.Grouping
           AggregateExpr.Without AggregateExpr.Expr].
    destruct (splitSum_shape_parent_fields expr) as (Hop & Hparam).
    rewrite Hparent at 1 2. repeat split; try assumption.
    rewrite Hchildren. rewrite splitSum_children_length; [reflexivity|].
    apply splitSum_err in Herr. apply Herr.
Qed.



End SplitClaims.



Lemma splitSum_grouping_shapes_witness :
  (* sum without (foo) (metric) *)
  (let r := splitSum Example.cloneOK (Example.run 3) (Example.summer 2 Example.squashLegs)
              Example.sumWithoutQuery [] in
   AggregateExpr.Grouping (fst (fst (fst r))) = [ShardLabel]
   /\ AggregateExpr.Without (fst (fst (fst r))) = true
   /\ Forall (child_shape Example.sumWithoutQuery ["foo"%string] true) (snd (fst (fst r))))
  (* sum by (foo) (metric) *)
  /\ (let r := splitSum Example.cloneOK (Example.run 3) (Example.summer 2 Example.squashLegs)
                 Example.sumByQuery [] in
      AggregateExpr.Grouping (fst (fst (fst r))) = ["foo"%string]
      /\ AggregateExpr.Without (fst (fst (fst r))) = false
      /\ Forall (child_shape Example.sumByQuery ["foo"%string; ShardLabel] false)
           (snd (fst (fst r))))
  (* sum (metric) *)
  /\ (let r := splitSum Example.cloneOK (Example.run 3) (Example.summer 2 Example.squashLegs)
                 Example.sumQuery [] in
      AggregateExpr.Grouping (fst (fst (fst r))) = [ShardLabel]
      /\ AggregateExpr.Without (fst (fst (fst r))) = true
      /\ Forall (child_shape Example.sumQuery [ShardLabel] false) (snd (fst (fst r))))
  (* the legs are there: two shards, two children, no error *)
  /\ (let r := splitSum Example.cloneOK (Example.run 3) (Example.summer 2 Example.squashLegs)
                 Example.sumByQuery [] in
      List.length (snd (fst (fst r))) = Z.to_nat 2
      /\ (0 <= 2 -> snd (fst r) = None)).
Proof.
  split; [|split; [|split]].
  - apply (splitSum_grouping_shapes Example.cloneOK (Example.run 3)
             (Example.summer 2 Example.squashLegs) Example.sumWithoutQuery []).
    reflexivity.
  - apply (splitSum_grouping_shapes Example.cloneOK (Example.run 3)
             (Example.summer 2 Example.squashLegs) Example.sumByQuery []).
    + reflexivity.
    + discriminate.
  - apply (splitSum_grouping_shapes Example.cloneOK (Example.run 3)
             (Example.summer 2 Example.squashLegs) Example.sumQuery []).
    + reflexivity.
    + reflexivity.
  - destruct (splitSum_grouping_shapes Example.cloneOK (Example.run 3)
                (Example.summer 2 Example.squashLegs) Example.sumByQuery [])
      as (_ & _ & _ & Hlegs & _).
    apply (Hlegs (Vector Example.selector) eq_refl).
    intros i c0 _. eexists. split; reflexivity.
Defined.




(** ** Finding the shard matcher *)

Lemma is_shard_matcher_test (m : Matcher) :
  String.eqb (Name m) ShardLabel && MatchType_eqb (Type_ m) MatchEqual = true
  <-> is_shard_matcher m.
Proof.
  unfold is_shard_matcher. rewrite andb_true_iff, String.eqb_eq.
  destruct (Type_ m); cbn; intuition congruence.
Qed.

Lemma ShardFromMatchers_from_first (matchers : list Matcher) :
  forall (k : Z) (i : nat) (m : Matcher),
    nth_error matchers i = Some m ->
    is_shard_matcher m ->
    (forall j m', (j < i)%nat -> nth_error matchers j = Some m' -> ~ is_shard_matcher m') ->
    ShardFromMatchers_from k matchers = found_at (k + Z.of_nat i) m.
Proof.
  induction matchers as [|m0 rest IH]; intros k i m Hnth Hm Hfirst.
  - destruct i; discriminate.
  - cbn [ShardFromMatchers_from]. destruct i as [|i].
    + injection Hnth as ->. apply is_shard_matcher_test in Hm. rewrite Hm.
      replace (k + Z.of_nat 0) with k by lia. reflexivity.
    + destruct (String.eqb (Name m0) ShardLabel && MatchType_eqb (Type_ m0) MatchEqual)
        eqn:Htest.
      * apply is_shard_matcher_test in Htest.
        exfalso. apply (Hfirst O m0); [lia | reflexivity | exact Htest].
      * rewrite (IH (k + 1) i m Hnth Hm).
        -- f_equal. lia.
        -- intros j m' Hj Hnth'. apply (Hfirst (S j) m'); [lia | exact Hnth'].
Qed.

Lemma ShardFromMatchers_from_none (matchers : list Matcher) :
  forall k : Z,
    (forall m, In m matchers -> ~ is_shard_matcher m) ->
    ShardFromMatchers_from k matchers = (None, 0, None).
Proof.
  induction matchers as [|m0 rest IH]; intros k Hnone.
  - reflexivity.
  - cbn [ShardFromMatchers_from].
    destruct (String.eqb (Name m0) ShardLabel && MatchType_eqb (Type_ m0) MatchEqual)
      eqn:Htest.
    + apply is_shard_matcher_test in Htest. exfalso. apply (Hnone m0); [left; reflexivity | exact Htest].
    + apply IH. intros m Hin. apply Hnone. right. exact Hin.
Qed.

(** C8.  [ShardFromMatchers] finds the first equality matcher on the
    reserved shard label: if [m], at index [i], is that matcher, the result
    is the decoded annotation of its value with index [i] and no error, or,
    when the value does not decode, no annotation, index [i] and the
    decoding error; if the list has no such matcher the result is no
    annotation, index 0 and no error. *)
Theorem ShardFromMatchers_spec :
  forall matchers : list Matcher,
    (forall (i : nat) (m : Matcher),
        nth_error matchers i = Some m ->
        is_shard_matcher m ->
        (forall j m', (j < i)%nat -> nth_error matchers j = Some m' -> ~ is_shard_matcher m') ->
        ShardFromMatchers matchers
        = match ParseShard (Value m) with
          | OK shard => (Some shard, Z.of_nat i, None)
          | Err e => (None, Z.of_nat i, Some e)
          end)
    /\ ((forall m, In m matchers -> ~ is_shard_matcher m) ->
        ShardFromMatchers matchers = (None, 0, None)).
Proof.
  intros matchers. split.
  - intros i m Hnth Hm Hfirst. unfold ShardFromMatchers.
    rewrite (ShardFromMatchers_from_first matchers 0 i m Hnth Hm Hfirst). reflexivity.
  - apply ShardFromMatchers_from_none.
Qed.

(** ** Regular expressions: the matcher decides the language *)

Lemma append_nil_r (s : string) : (s ++ "")%string = s.
Proof. induction s as [|c s IH]; cbn; [reflexivity | now rewrite IH]. Qed.

Lemma append_assoc (a b c : string) : ((a ++ b) ++ c)%string = (a ++ (b ++ c))%string.
Proof. induction a as [|x a IH]; cbn; [reflexivity | now rewrite IH]. Qed.

Lemma append_eq_nil (a b : string) : (a ++ b)%string = EmptyString -> a = EmptyString /\ b = EmptyString.
Proof. destruct a; cbn; [auto | discriminate]. Qed.

Lemma nullable_spec (r : regexp.regex) :
  regexp.nullable r = true <-> matches r EmptyString.
Proof.
  induction r as [| | lo hi | c | r1 IH1 r2 IH2 | r1 IH1 r2 IH2 | r IH]; cbn.
  - split; [discriminate | intros H; inversion H].
  - split; [intros _; constructor | reflexivity].
  - split; [discriminate | intros H; inversion H].
  - split; [discriminate | intros H; inversion H].
  - rewrite andb_true_iff, IH1, IH2. split.
    + intros [H1 H2]. change EmptyString with ("" ++ "")%string. now constructor.
    + intros H. inversion H; subst.
      match goal with E : (_ ++ _)%string = EmptyString |- _ =>
        apply append_eq_nil in E; destruct E; subst end.
      auto.
  - rewrite orb_true_iff, IH1, IH2. split.
    + intros [H | H]; [now apply MAltL | now apply MAltR].
    + intros H. inversion H; subst; auto.
  - split; [intros _; constructor | reflexivity].
Qed.

(** A non-empty word of [r*] starts with a non-empty word of [r]. *)
Lemma matches_star_cons (r : regexp.regex) (c : ascii) (s : string) :
  matches (regexp.Star r) (String c s) ->
  exists s1 s2, s = (s1 ++ s2)%string
                /\ matches r (String c s1) /\ matches (regexp.Star r) s2.
Proof.
  intros H. remember (regexp.Star r) as r' eqn:Hr. remember (String c s) as w eqn:Hw.
  revert Hr Hw.
  induction H as [| | | | | | r0 | r0 s1 s2 H1 _ H2 IH2]; try discriminate.
  intros [= ->] Hw. destruct s1 as [|c1 s1]; cbn in Hw.
  - apply IH2; [reflexivity | exact Hw].
  - injection Hw as -> <-. exists s1, s2. auto.
Qed.

Lemma deriv_sound (r : regexp.regex) :
  forall c s, matches (regexp.deriv c r) s -> matches r (String c s).
Proof.
  induction r as [| | lo hi | c' | r1 IH1 r2 IH2 | r1 IH1 r2 IH2 | r IH];
    intros c s H; cbn in H.
  - inversion H.
  - inversion H.
  - destruct (regexp.in_class lo hi c) eqn:Hc; inversion H; subst. now constructor.
  - destruct (Ascii.eqb_spec c c'); inversion H; subst. constructor.
  - assert (Hcat : forall w, matches (regexp.Cat (regexp.deriv c r1) r2) w ->
                             matches (regexp.Cat r1 r2) (String c w)).
    { intros w Hw. inversion Hw; subst.
      match goal with |- matches _ (String c (?s1 ++ ?s2)) =>
        change (String c (s1 ++ s2)) with (String c s1 ++ s2)%string end.
      constructor; [now apply IH1 | assumption]. }
    destruct (regexp.nullable r1) eqn:Hn; [|now apply Hcat].
    inversion H; subst; [now apply Hcat|].
    change (String c s) with ("" ++ String c s)%string.
    constructor; [now apply nullable_spec | now apply IH2].
  - inversion H; subst; [apply MAltL | apply MAltR]; auto.
  - inversion H; subst.
    match goal with |- matches _ (String c (?s1 ++ ?s2)) =>
      change (String c (s1 ++ s2)) with (String c s1 ++ s2)%string end.
    constructor; [now apply IH | assumption].
Qed.

Lemma deriv_complete (r : regexp.regex) :
  forall c s, matches r (String c s) -> matches (regexp.deriv c r) s.
Proof.
  induction r as [| | lo hi | c' | r1 IH1 r2 IH2 | r1 IH1 r2 IH2 | r IH];
    intros c s H; cbn.
  - inversion H.
  - inversion H.
  - inversion H; subst.
    match goal with Hc : regexp.in_class _ _ _ = true |- _ => rewrite Hc end. constructor.
  - inversion H; subst. rewrite Ascii.eqb_refl. constructor.
  - remember (String c s) as w eqn:Hw.
    inversion H as [| | | ? ? s1 s2 H1 H2 | | | |]; subst.
    match goal with E : (_ ++ _)%string = String c s |- _ => rename E into Heq end.
    destruct s1 as [|c1 s1]; cbn in Heq.
    + subst s2. apply nullable_spec in H1. rewrite H1. apply MAltR. now apply IH2.
    + injection Heq as -> <-.
      assert (Hcat : matches (regexp.Cat (regexp.deriv c r1) r2) (s1 ++ s2)%string)
        by (constructor; [now apply IH1 | exact H2]).
      destruct (regexp.nullable r1); [now apply MAltL | exact Hcat].
  - inversion H; subst; [apply MAltL | apply MAltR]; auto.
  - apply matches_star_cons in H. destruct H as (s1 & s2 & -> & H1 & H2).
    constructor; [now apply IH | exact H2].
Qed.

(** [MatchString] accepts exactly the words of the language. *)
Lemma MatchString_spec (s : string) :
  forall r, regexp.MatchString r s = true <-> matches r s.
Proof.
  induction s as [|c s IH]; intros r; cbn.
  - apply nullable_spec.
  - rewrite IH. split; [apply deriv_sound | apply deriv_complete].
Qed.

(** ** The shard-label grammar *)

Lemma in_class_digit (c : ascii) : regexp.in_class "0" "9" c = strconv.is_digit c.
Proof. reflexivity. Qed.

Lemma matches_star_digits (s : string) :
  matches (regexp.Star (regexp.Class "0" "9")) s <-> all_digits s = true.
Proof.
  split.
  - induction s as [|c s IH]; intros H; [reflexivity|].
    apply matches_star_cons in H. destruct H as (s1 & s2 & -> & H1 & H2).
    inversion H1; subst. cbn. rewrite <- in_class_digit.
    match goal with Hc : regexp.in_class _ _ _ = true |- _ => rewrite Hc end.
    apply IH. exact H2.
  - induction s as [|c s IH]; cbn; intros H; [constructor|].
    apply andb_true_iff in H. destruct H as [Hc Hs].
    change (String c s) with (String c "" ++ s)%string.
    constructor; [constructor; now rewrite in_class_digit | now apply IH].
Qed.

Lemma matches_plus_digits (s : string) :
  matches (regexp.Plus (regexp.Class "0" "9")) s <-> decimal s.
Proof.
  unfold regexp.Plus, decimal. split.
  - intros H. inversion H; subst.
    match goal with H1 : matches (regexp.Class _ _) _ |- _ => inversion H1; subst end.
    cbn. split; [discriminate|]. rewrite <- in_class_digit.
    match goal with Hc : regexp.in_class _ _ _ = true |- _ => rewrite Hc end.
    now apply matches_star_digits.
  - intros [Hne Hd]. destruct s as [|c s]; [congruence|]. cbn in Hd.
    apply andb_true_iff in Hd. destruct Hd as [Hc Hs].
    change (String c s) with (String c "" ++ s)%string.
    constructor; [constructor; now rewrite in_class_digit | now apply matches_star_digits].
Qed.

Lemma matches_Lits (lit s : string) : matches (regexp.Lits lit) s <-> s = lit.
Proof.
  revert s. induction lit as [|c lit IH]; intros s; cbn.
  - split; [intros H; now inversion H | intros ->; constructor].
  - split.
    + intros H. inversion H; subst.
      match goal with H1 : matches (regexp.Lit _) _ |- _ => inversion H1; subst end.
      cbn. f_equal. now apply IH.
    + intros ->. change (String c lit) with (String c "" ++ lit)%string.
      constructor; [constructor | now apply IH].
Qed.

Lemma matches_Cat_inv (r1 r2 : regexp.regex) (s : string) :
  matches (regexp.Cat r1 r2) s ->
  exists s1 s2, s = (s1 ++ s2)%string /\ matches r1 s1 /\ matches r2 s2.
Proof. intros H. inversion H; subst. eauto. Qed.

(** The compiled pattern accepts exactly the strings of the grammar. *)
Lemma ShardLabelRE_spec (s : string) :
  regexp.MatchString ShardLabelRE s = true <-> shard_label_grammar s.
Proof.
  rewrite MatchString_spec. unfold ShardLabelRE, shard_label_grammar. split.
  - intros H. apply matches_Cat_inv in H. destruct H as (a & rest & -> & Ha & H).
    apply matches_Cat_inv in H. destruct H as (l & b & -> & Hl & Hb).
    apply matches_plus_digits in Ha, Hb. apply matches_Lits in Hl. subst l.
    exists a, b. auto.
  - intros (a & b & Ha & Hb & ->).
    constructor; [now apply matches_plus_digits|].
    constructor; [now apply matches_Lits | now apply matches_plus_digits].
Qed.

(** ** Splitting at the underscores *)

Lemma is_digit_not_underscore (c : ascii) :
  strconv.is_digit c = true -> Ascii.eqb c "_" = false.
Proof.
  intros H. destruct (Ascii.eqb_spec c "_") as [-> |]; [discriminate | reflexivity].
Qed.

Lemma Split_digits (s : string) :
  all_digits s = true -> strings.Split s "_" = [s].
Proof.
  induction s as [|c s IH]; cbn; intros H; [reflexivity|].
  apply andb_true_iff in H. destruct H as [Hc Hs].
  rewrite (is_digit_not_underscore c Hc), (IH Hs). reflexivity.
Qed.

Lemma Split_digits_app (a rest : string) :
  all_digits a = true ->
  strings.Split (a ++ String "_" rest)%string "_" = a :: strings.Split rest "_".
Proof.
  induction a as [|c a IH]; cbn; intros H; [reflexivity|].
  apply andb_true_iff in H. destruct H as [Hc Ha].
  rewrite (is_digit_not_underscore c Hc), (IH Ha). reflexivity.
Qed.

Lemma Split_shard_label (a b : string) :
  all_digits a = true -> all_digits b = true ->
  strings.Split (a ++ "_of_" ++ b)%string "_" = [a; "of"%string; b].
Proof.
  intros Ha Hb.
  change ("_of_" ++ b)%string with (String "_" ("of_" ++ b)%string).
  rewrite (Split_digits_app a _ Ha). cbn.
  rewrite (Split_digits b Hb). reflexivity.
Qed.

(** ** [Atoi] on a run of digits *)

Lemma digit_val_range (c : ascii) :
  strconv.is_digit c = true -> 0 <= strconv.digit_val c <= 9.
Proof.
  unfold strconv.is_digit, strconv.digit_val. intros H.
  apply andb_true_iff in H. destruct H as [H1 H2].
  apply Nat.leb_le in H1, H2. lia.
Qed.

Lemma decimal_value_from_ge (s : string) :
  forall n, 0 <= n -> all_digits s = true -> n <= decimal_value_from n s.
Proof.
  induction s as [|c s IH]; cbn; intros n Hn H; [lia|].
  apply andb_true_iff in H. destruct H as [Hc Hs].
  pose proof (digit_val_range c Hc).
  specialize (IH (n * 10 + strconv.digit_val c) ltac:(lia) Hs). lia.
Qed.

Lemma ParseUint_loop_digits (s0 s : string) :
  forall n, 0 <= n <= strconv.maxUint64 -> all_digits s = true ->
    strconv.ParseUint_loop s0 s n
    = if strconv.maxUint64 <? decimal_value_from n s
      then Err (ErrRange s0)
      else OK (decimal_value_from n s).
Proof.
  induction s as [|c s IH]; cbn [strconv.ParseUint_loop decimal_value_from all_digits];
    intros n Hn H.
  - destruct (Z.ltb_spec strconv.maxUint64 n); [lia | reflexivity].
  - apply andb_true_iff in H. destruct H as [Hc Hs]. rewrite Hc.
    pose proof (digit_val_range c Hc) as Hd.
    destruct (Z.ltb_spec strconv.maxUint64 (n * 10 + strconv.digit_val c)) as [Hbig | Hok].
    + pose proof (decimal_value_from_ge s (n * 10 + strconv.digit_val c) ltac:(lia) Hs).
      destruct (Z.ltb_spec strconv.maxUint64
                  (decimal_value_from (n * 10 + strconv.digit_val c) s)); [reflexivity | lia].
    + apply IH; [lia | exact Hs].
Qed.

Lemma is_digit_not_sign (c : ascii) :
  strconv.is_digit c = true -> Ascii.eqb c "-" = false /\ Ascii.eqb c "+" = false.
Proof.
  intros H. split.
  - destruct (Ascii.eqb_spec c "-") as [-> |]; [discriminate | reflexivity].
  - destruct (Ascii.eqb_spec c "+") as [-> |]; [discriminate | reflexivity].
Qed.

Lemma decimal_value_nonneg (s : string) : all_digits s = true -> 0 <= decimal_value s.
Proof. intros H. apply (decimal_value_from_ge s 0); [lia | exact H]. Qed.

(** On a non-empty run of digits [Atoi] returns the value read in base
    ten when it fits an [int], and a range error otherwise. *)
Lemma Atoi_decimal (s : string) :
  decimal s ->
  strconv.Atoi s
  = if strconv.maxInt <? decimal_value s then Err (ErrRange s) else OK (decimal_value s).
Proof.
  intros [Hne Hd]. destruct s as [|c s]; [congruence|].
  pose proof Hd as Hd'. cbn in Hd'. apply andb_true_iff in Hd'. destruct Hd' as [Hc Hs].
  destruct (is_digit_not_sign c Hc) as [Hminus Hplus].
  unfold strconv.Atoi. rewrite Hminus, Hplus. cbn [orb].
  rewrite (ParseUint_loop_digits (String c s) (String c s) 0);
    [| unfold strconv.maxUint64; lia | exact Hd].
  fold (decimal_value (String c s)).
  destruct (Z.ltb_spec strconv.maxUint64 (decimal_value (String c s))) as [Hbig | Hok].
  - destruct (Z.ltb_spec strconv.maxInt (decimal_value (String c s))) as [_ | Hsmall];
      [reflexivity|].
    unfold strconv.maxInt, strconv.maxUint64, strconv.intSize in *. lia.
  - reflexivity.
Qed.

(** ** Decoding a string of the grammar *)

Lemma ParseShard_not_grammar (s : string) :
  ~ shard_label_grammar s -> ParseShard s = Err (ErrInvalidShardLabel s).
Proof.
  intros H. unfold ParseShard.
  destruct (regexp.MatchString ShardLabelRE s) eqn:E; [|reflexivity].
  exfalso. apply H. now apply ShardLabelRE_spec.
Qed.

Lemma ParseShard_decimal (a b : string) :
  decimal a -> decimal b ->
  ParseShard (a ++ "_of_" ++ b)
  = if strconv.maxInt <? decimal_value a then Err (ErrRange a)
    else if strconv.maxInt <? decimal_value b then Err (ErrRange b)
    else if decimal_value b <=? decimal_value a
         then Err (ErrShardsOutOfBounds (decimal_value a) (decimal_value b))
         else OK {| Shard := decimal_value a; Of := decimal_value b |}.
Proof.
  intros Ha Hb. unfold ParseShard.
  assert (Hre : regexp.MatchString ShardLabelRE (a ++ "_of_" ++ b) = true).
  { apply ShardLabelRE_spec. exists a, b. auto. }
  rewrite Hre. cbn [negb].
  rewrite (Split_shard_label a b (proj2 Ha) (proj2 Hb)). cbn [nth_error].
  rewrite (Atoi_decimal a Ha).
  destruct (strconv.maxInt <? decimal_value a); [reflexivity|].
  rewrite (Atoi_decimal b Hb).
  destruct (strconv.maxInt <? decimal_value b); reflexivity.
Qed.

(** [ParseShard] never runs into the index panic. *)
Lemma ParseShard_no_panic (s : string) (i len : nat) :
  ParseShard s <> Err (PanicIndexOutOfRange i len).
Proof.
  destruct (regexp.MatchString ShardLabelRE s) eqn:E.
  - apply ShardLabelRE_spec in E. destruct E as (a & b & Ha & Hb & ->).
    rewrite (ParseShard_decimal a b Ha Hb).
    repeat match goal with |- context [if ?t then _ else _] => destruct t end; discriminate.
  - unfold ParseShard. rewrite E. discriminate.
Qed.

(** ** [Itoa] writes non-padded decimal digits *)

Lemma digit_char_spec (u : Z) :
  0 <= u < 10 ->
  strconv.is_digit (strconv.digit_char u) = true
  /\ strconv.digit_val (strconv.digit_char u) = u
  /\ (0 < u -> strconv.digit_char u <> "0"%char).
Proof.
  intros H.
  assert (Hcases : u = 0 \/ u = 1 \/ u = 2 \/ u = 3 \/ u = 4 \/ u = 5 \/ u = 6 \/ u = 7
                   \/ u = 8 \/ u = 9) by lia.
  repeat (destruct Hcases as [-> | Hcases]); try subst u;
    (split; [reflexivity | split; [reflexivity | intros; try lia; discriminate]]).
Qed.

Lemma formatBits_nonempty :
  forall fuel u acc0, strconv.formatBits fuel u acc0 <> EmptyString.
Proof.
  induction fuel as [|fuel IH]; intros u acc0; cbn [strconv.formatBits]; [discriminate|].
  destruct (10 <=? u); [apply IH | discriminate].
Qed.

Lemma formatBits_digits :
  forall fuel u acc0, 0 <= u < 10 * 2 ^ Z.of_nat fuel ->
    all_digits acc0 = true -> all_digits (strconv.formatBits fuel u acc0) = true.
Proof.
  induction fuel as [|fuel IH]; intros u acc0 Hu Hacc; cbn [strconv.formatBits].
  - cbn in Hu. cbn [all_digits]. rewrite (proj1 (digit_char_spec u ltac:(lia))), Hacc.
    reflexivity.
  - destruct (Z.leb_spec 10 u) as [Hge | Hlt].
    + apply IH.
      * rewrite Nat2Z.inj_succ, Z.pow_succ_r in Hu by lia.
        split; [apply Z.div_pos; lia|]. apply Z.div_lt_upper_bound; lia.
      * cbn [all_digits].
        rewrite (proj1 (digit_char_spec (u mod 10) (Z.mod_pos_bound u 10 ltac:(lia)))), Hacc.
        reflexivity.
    + cbn [all_digits]. rewrite (proj1 (digit_char_spec u ltac:(lia))), Hacc. reflexivity.
Qed.

Lemma formatBits_value :
  forall fuel u acc0, 0 <= u < 10 * 2 ^ Z.of_nat fuel ->
    decimal_value (strconv.formatBits fuel u acc0) = decimal_value_from u acc0.
Proof.
  unfold decimal_value.
  induction fuel as [|fuel IH]; intros u acc0 Hu; cbn [strconv.formatBits].
  - cbn in Hu. cbn [decimal_value_from].
    rewrite (proj1 (proj2 (digit_char_spec u ltac:(lia)))). reflexivity.
  - destruct (Z.leb_spec 10 u) as [Hge | Hlt].
    + rewrite IH.
      * cbn [decimal_value_from].
        rewrite (proj1 (proj2 (digit_char_spec (u mod 10) (Z.mod_pos_bound u 10 ltac:(lia))))).
        f_equal. pose proof (Z.div_mod u 10 ltac:(lia)). lia.
      * rewrite Nat2Z.inj_succ, Z.pow_succ_r in Hu by lia.
        split; [apply Z.div_pos; lia|]. apply Z.div_lt_upper_bound; lia.
    + cbn [decimal_value_from].
      rewrite (proj1 (proj2 (digit_char_spec u ltac:(lia)))). reflexivity.
Qed.

(** The first digit written for a positive number is not a zero. *)
Lemma formatBits_no_leading_zero :
  forall fuel u acc0, 0 < u < 10 * 2 ^ Z.of_nat fuel ->
    exists c rest, strconv.formatBits fuel u acc0 = String c rest /\ c <> "0"%char.
Proof.
  induction fuel as [|fuel IH]; intros u acc0 Hu; cbn [strconv.formatBits].
  - cbn in Hu. do 2 eexists. split; [reflexivity|].
    apply (digit_char_spec u); lia.
  - destruct (Z.leb_spec 10 u) as [Hge | Hlt].
    + apply IH. rewrite Nat2Z.inj_succ, Z.pow_succ_r in Hu by lia.
      split; [apply Z.div_str_pos; lia|]. apply Z.div_lt_upper_bound; lia.
    + do 2 eexists. split; [reflexivity|]. apply (digit_char_spec u); lia.
Qed.

Lemma log2_fuel (u : Z) : 0 <= u -> 0 <= u < 10 * 2 ^ Z.of_nat (Z.to_nat (Z.log2 u)).
Proof.
  intros Hu. split; [exact Hu|].
  rewrite Z2Nat.id by apply Z.log2_nonneg.
  destruct (Z.eq_dec u 0) as [-> | Hne]; [cbn; lia|].
  pose proof (Z.log2_spec u ltac:(lia)) as [_ Hlt].
  rewrite Z.pow_succ_r in Hlt by apply Z.log2_nonneg. lia.
Qed.

Lemma Itoa_nonneg (n : Z) :
  0 <= n ->
  decimal (strconv.Itoa n)
  /\ decimal_value (strconv.Itoa n) = n
  /\ (0 < n -> exists c rest, strconv.Itoa n = String c rest /\ c <> "0"%char)
  /\ (n = 0 -> strconv.Itoa n = "0"%string).
Proof.
  intros Hn. unfold strconv.Itoa, strconv.FormatInt.
  destruct (Z.ltb_spec n 0) as [Hneg | _]; [lia|].
  pose proof (log2_fuel n Hn) as Hfuel.
  split; [split|split; [|split]].
  - apply formatBits_nonempty.
  - apply formatBits_digits; [exact Hfuel | reflexivity].
  - rewrite formatBits_value by exact Hfuel. reflexivity.
  - intros Hpos. apply formatBits_no_leading_zero. lia.
  - intros ->. reflexivity.
Qed.

(** ** The codec *)



(** C7.  [ParseShard] succeeds only on a string of the grammar
    [^[0-9]+_of_[0-9]+$] whose two halves are the decimal notations of the
    annotation's fields, both within [int] and with [0 <= shard < of]; off
    the grammar it fails with the invalid-label error; on the grammar, a
    half that does not fit an [int] is a range error of [Atoi], and a shard
    that is not below the total is the bounds error.  ["2_of_4"] decodes to
    [{2, 4}], ["4_of_4"] is a bounds error and ["a_of_4"] a decode error. *)
Theorem ParseShard_spec :
  forall s : string,
    (forall ann, ParseShard s = OK ann ->
       exists a b,
         decimal a /\ decimal b /\ s = (a ++ "_of_" ++ b)%string
         /\ decimal_value a = Shard ann /\ decimal_value b = Of ann
         /\ 0 <= Shard ann < Of ann /\ Of ann <= strconv.maxInt)
    /\ (~ shard_label_grammar s -> ParseShard s = Err (ErrInvalidShardLabel s))
    /\ (forall a b,
          decimal a -> decimal b -> s = (a ++ "_of_" ++ b)%string ->
          (strconv.maxInt < decimal_value a -> ParseShard s = Err (ErrRange a))
          /\ (decimal_value a <= strconv.maxInt -> strconv.maxInt < decimal_value b ->
              ParseShard s = Err (ErrRange b))
          /\ (decimal_value a <= strconv.maxInt -> decimal_value b <= strconv.maxInt ->
              decimal_value b <= decimal_value a ->
              ParseShard s
              = Err (ErrShardsOutOfBounds (decimal_value a) (decimal_value b))))
    /\ ParseShard "2_of_4" = OK {| Shard := 2; Of := 4 |}
    /\ ParseShard "4_of_4" = Err (ErrShardsOutOfBounds 4 4)
    /\ ParseShard "a_of_4" = Err (ErrInvalidShardLabel "a_of_4").
Proof.
  intros s. split; [|split; [|split; [|split; [|split]]]].
  - intros ann Hok.
    destruct (regexp.MatchString ShardLabelRE s) eqn:E.
    2:{ unfold ParseShard in Hok. rewrite E in Hok. discriminate. }
    apply ShardLabelRE_spec in E. destruct E as (a & b & Ha & Hb & ->).
    rewrite (ParseShard_decimal a b Ha Hb) in Hok.
    destruct (Z.ltb_spec strconv.maxInt (decimal_value a)); [discriminate|].
    destruct (Z.ltb_spec strconv.maxInt (decimal_value b)); [discriminate|].
    destruct (Z.leb_spec (decimal_value b) (decimal_value a)); [discriminate|].
    injection Hok as <-. cbn [Shard Of].
    pose proof (decimal_value_nonneg a (proj2 Ha)).
    exists a, b. repeat split; try apply Ha; try apply Hb; lia.
  - apply ParseShard_not_grammar.
  - intros a b Ha Hb ->. rewrite (ParseShard_decimal a b Ha Hb).
    split; [|split].
    + intros H. destruct (Z.ltb_spec strconv.maxInt (decimal_value a)); [reflexivity | lia].
    + intros H1 H2.
      destruct (Z.ltb_spec strconv.maxInt (decimal_value a)); [lia|].
      destruct (Z.ltb_spec strconv.maxInt (decimal_value b)); [reflexivity | lia].
    + intros H1 H2 H3.
      destruct (Z.ltb_spec strconv.maxInt (decimal_value a)); [lia|].
      destruct (Z.ltb_spec strconv.maxInt (decimal_value b)); [lia|].
      destruct (Z.leb_spec (decimal_value b) (decimal_value a)); [reflexivity | lia].
  - reflexivity.
  - reflexivity.
  - reflexivity.
Qed.

Lemma ParseShard_spec_witness :
  (exists a b,
      decimal a /\ decimal b /\ "2_of_4"%string = (a ++ "_of_" ++ b)%string
      /\ decimal_value a = 2 /\ decimal_value b = 4
      /\ 0 <= 2 < 4 /\ 4 <= strconv.maxInt)
  /\ ParseShard "a_of_4" = Err (ErrInvalidShardLabel "a_of_4")
  /\ ParseShard "9223372036854775808_of_4" = Err (ErrRange "9223372036854775808")
  /\ ParseShard "1_of_9223372036854775808" = Err (ErrRange "9223372036854775808")
  /\ ParseShard "7_of_3" = Err (ErrShardsOutOfBounds 7 3).
Proof.
  assert (Hdec : forall s, s <> EmptyString -> all_digits s = true -> decimal s)
    by (intros s H1 H2; split; assumption).
  split; [|split; [|split; [|split]]].
  - destruct (ParseShard_spec "2_of_4") as (Hok & _).
    exact (Hok {| Shard := 2; Of := 4 |} eq_refl).
  - destruct (ParseShard_spec "a_of_4") as (_ & Hbad & _).
    apply Hbad. intros Hg. apply ShardLabelRE_spec in Hg. discriminate Hg.
  - destruct (ParseShard_spec "9223372036854775808_of_4") as (_ & _ & Hg & _).
    apply (Hg "9223372036854775808"%string "4"%string);
      [apply Hdec; [discriminate | reflexivity] | apply Hdec; [discriminate | reflexivity]
      | reflexivity | reflexivity].
  - destruct (ParseShard_spec "1_of_9223372036854775808") as (_ & _ & Hg & _).
    apply (Hg "1"%string "9223372036854775808"%string);
      [apply Hdec; [discriminate | reflexivity] | apply Hdec; [discriminate | reflexivity]
      | reflexivity | vm_compute; discriminate | reflexivity].
  - destruct (ParseShard_spec "7_of_3") as (_ & _ & Hg & _).
    apply (Hg "7"%string "3"%string);
      [apply Hdec; [discriminate | reflexivity] | apply Hdec; [discriminate | reflexivity]
      | reflexivity | vm_compute; discriminate | vm_compute; discriminate
      | vm_compute; discriminate].
Defined.

Lemma ShardFromMatchers_spec_witness :
  ShardFromMatchers Example.matchersThird = (Some {| Shard := 2; Of := 4 |}, 2, None)
  /\ ShardFromMatchers Example.matchersBad = (None, 0, Some (ErrShardsOutOfBounds 4 4))
  /\ ShardFromMatchers Example.matchersNone = (None, 0, None).
Proof.
  split; [|split].
  - refine (proj1 (ShardFromMatchers_spec Example.matchersThird) 2%nat
              {| Type_ := MatchEqual; Name := ShardLabel; Value := "2_of_4" |}
              eq_refl (conj eq_refl eq_refl) _).
    intros j m' Hj Hnth [Hname Htype].
    destruct j as [|[|j]]; [| |lia]; injection Hnth as <-; discriminate.
  - refine (proj1 (ShardFromMatchers_spec Example.matchersBad) 0%nat
              {| Type_ := MatchEqual; Name := ShardLabel; Value := "4_of_4" |}
              eq_refl (conj eq_refl eq_refl) _).
    intros j m' Hj. lia.
  - refine (proj2 (ShardFromMatchers_spec Example.matchersNone) _).
    intros m [<- | []] [Hname _]. discriminate.
Defined.

(** ** Running the whole mapper *)

(** A nested sum is split at both levels: with two shards the counter
    receives the shard count once for the outer split and once for each
    of the two inner splits. *)
Example nested_sum_counter :
  let r := Example.run 5 (Example.summer 2 Example.squashLegs)
             (Aggregate (Example.agg SUM false [] (Aggregate Example.sumByQuery))) [] in
  is_ok (fst r) = true /\ snd r = [2; 2; 2] /\ total (snd r) = 2 + 2 * 2.
Proof. vm_compute. repeat split. Qed.

(** * Further properties of the codec *)

(** ** [Itoa] on every integer *)

Lemma all_digits_no_underscore (s : string) :
  all_digits s = true -> no_underscore s = true.
Proof.
  induction s as [|c s IH]; cbn; intros H; [reflexivity|].
  apply andb_true_iff in H. destruct H as [Hc Hs].
  rewrite (is_digit_not_underscore c Hc), (IH Hs). reflexivity.
Qed.

(** A negative number is written as a minus sign and the digits of its
    magnitude. *)
Lemma Itoa_neg (n : Z) :
  n < 0 ->
  exists d, strconv.Itoa n = String "-" d /\ decimal d /\ decimal_value d = - n.
Proof.
  intros Hn. unfold strconv.Itoa, strconv.FormatInt.
  destruct (Z.ltb_spec n 0) as [_ | Hge]; [|lia].
  pose proof (log2_fuel (- n) ltac:(lia)) as Hfuel.
  eexists. split; [reflexivity|]. split; [split|].
  - apply formatBits_nonempty.
  - apply formatBits_digits; [exact Hfuel | reflexivity].
  - rewrite formatBits_value by exact Hfuel. reflexivity.
Qed.

Lemma Itoa_no_underscore (n : Z) : no_underscore (strconv.Itoa n) = true.
Proof.
  destruct (Z.lt_ge_cases n 0) as [Hneg | Hpos].
  - destruct (Itoa_neg n Hneg) as (d & -> & [_ Hd] & _). cbn.
    apply all_digits_no_underscore. exact Hd.
  - destruct (Itoa_nonneg n Hpos) as ([_ Hd] & _).
    apply all_digits_no_underscore. exact Hd.
Qed.

Lemma Itoa_injective (n m : Z) : strconv.Itoa n = strconv.Itoa m -> n = m.
Proof.
  intros H.
  destruct (Z.lt_ge_cases n 0) as [Hn | Hn], (Z.lt_ge_cases m 0) as [Hm | Hm].
  - destruct (Itoa_neg n Hn) as (d & Hd & _ & Hv).
    destruct (Itoa_neg m Hm) as (d' & Hd' & _ & Hv').
    rewrite Hd, Hd' in H. injection H as ->. lia.
  - destruct (Itoa_neg n Hn) as (d & Hd & _).
    destruct (Itoa_nonneg m Hm) as ([_ Hdig] & _).
    rewrite <- H, Hd in Hdig. discriminate.
  - destruct (Itoa_neg m Hm) as (d & Hd & _).
    destruct (Itoa_nonneg n Hn) as ([_ Hdig] & _).
    rewrite H, Hd in Hdig. discriminate.
  - destruct (Itoa_nonneg n Hn) as (_ & Hv & _).
    destruct (Itoa_nonneg m Hm) as (_ & Hv' & _).
    rewrite H in Hv. lia.
Qed.

(** ** Splitting an encoding *)

Lemma Split_no_underscore (s : string) :
  no_underscore s = true -> strings.Split s "_" = [s].
Proof.
  induction s as [|c s IH]; cbn; intros H; [reflexivity|].
  apply andb_true_iff in H. destruct H as [Hc Hs].
  apply negb_true_iff in Hc. rewrite Hc, (IH Hs). reflexivity.
Qed.

Lemma Split_no_underscore_app (a rest : string) :
  no_underscore a = true ->
  strings.Split (a ++ String "_" rest)%string "_" = a :: strings.Split rest "_".
Proof.
  induction a as [|c a IH]; cbn; intros H; [reflexivity|].
  apply andb_true_iff in H. destruct H as [Hc Ha].
  apply negb_true_iff in Hc. rewrite Hc, (IH Ha). reflexivity.
Qed.

Lemma Split_of (a b : string) :
  no_underscore a = true -> no_underscore b = true ->
  strings.Split (a ++ "_of_" ++ b)%string "_" = [a; "of"%string; b].
Proof.
  intros Ha Hb.
  change ("_of_" ++ b)%string with (String "_" ("of_" ++ b)%string).
  rewrite (Split_no_underscore_app a _ Ha). cbn.
  rewrite (Split_no_underscore b Hb). reflexivity.
Qed.

(** The two numbers of an encoding can be read back from it. *)
Lemma Sprintf_ShardLabelFmt_halves (x y : Z) (a b : string) :
  no_underscore a = true -> no_underscore b = true ->
  Sprintf_ShardLabelFmt x y = (a ++ "_of_" ++ b)%string ->
  strconv.Itoa x = a /\ strconv.Itoa y = b.
Proof.
  intros Ha Hb H. apply (f_equal (fun s => strings.Split s "_")) in H.
  unfold Sprintf_ShardLabelFmt in H.
  rewrite (Split_of _ _ (Itoa_no_underscore x) (Itoa_no_underscore y)) in H.
  rewrite (Split_of a b Ha Hb) in H. injection H as H1 H2. auto.
Qed.

(** ** Decoding, once more *)

Lemma ParseShard_OK_inv (s : string) (ann : ShardAnnotation) :
  ParseShard s = OK ann ->
  exists a b,
    decimal a /\ decimal b /\ s = (a ++ "_of_" ++ b)%string
    /\ decimal_value a = Shard ann /\ decimal_value b = Of ann
    /\ valid_annotation ann.
Proof.
  intros Hok.
  destruct (regexp.MatchString ShardLabelRE s) eqn:E.
  2:{ unfold ParseShard in Hok. rewrite E in Hok. discriminate. }
  apply ShardLabelRE_spec in E. destruct E as (a & b & Ha & Hb & ->).
  rewrite (ParseShard_decimal a b Ha Hb) in Hok.
  destruct (Z.ltb_spec strconv.maxInt (decimal_value a)); [discriminate|].
  destruct (Z.ltb_spec strconv.maxInt (decimal_value b)); [discriminate|].
  destruct (Z.leb_spec (decimal_value b) (decimal_value a)); [discriminate|].
  injection Hok as <-. unfold valid_annotation. cbn [Shard Of].
  pose proof (decimal_value_nonneg a (proj2 Ha)).
  exists a, b. repeat split; try apply Ha; try apply Hb; lia.
Qed.

Lemma ParseShard_encode_valid (ann : ShardAnnotation) :
  valid_annotation ann -> ParseShard (String_ ann) = OK ann.
Proof.
  destruct ann as [x y]. unfold valid_annotation, String_, Sprintf_ShardLabelFmt.
  cbn [Shard Of]. intros [Hrange Hmax].
  destruct (Itoa_nonneg x ltac:(lia)) as (Hdx & Hvx & _).
  destruct (Itoa_nonneg y ltac:(lia)) as (Hdy & Hvy & _).
  rewrite (ParseShard_decimal _ _ Hdx Hdy), Hvx, Hvy.
  destruct (Z.ltb_spec strconv.maxInt x); [lia|].
  destruct (Z.ltb_spec strconv.maxInt y); [lia|].
  destruct (Z.leb_spec y x); [lia | reflexivity].
Qed.

(** What [ParseShard] can return: an annotation that satisfies the
    invariant, or one of three errors: the string is off the pattern; a
    half is a digit run too large for an [int]; the shard is not below the
    total.  The syntax error of [Atoi] and the index panic on the pieces of
    the split never happen, because the pattern is checked first. *)
Theorem ParseShard_outcomes :
  forall s : string,
    match ParseShard s with
    | OK ann => valid_annotation ann
    | Err e =>
        (e = ErrInvalidShardLabel s /\ ~ shard_label_grammar s)
        \/ (exists half, decimal half /\ strconv.maxInt < decimal_value half
                         /\ e = ErrRange half)
        \/ (exists x y, 0 <= y <= x /\ x <= strconv.maxInt
                        /\ e = ErrShardsOutOfBounds x y)
    end.
Proof.
  intros s. destruct (regexp.MatchString ShardLabelRE s) eqn:E.
  - apply ShardLabelRE_spec in E. destruct E as (a & b & Ha & Hb & ->).
    rewrite (ParseShard_decimal a b Ha Hb).
    pose proof (decimal_value_nonneg a (proj2 Ha)).
    pose proof (decimal_value_nonneg b (proj2 Hb)).
    destruct (Z.ltb_spec strconv.maxInt (decimal_value a)).
    { right. left. exists a. auto. }
    destruct (Z.ltb_spec strconv.maxInt (decimal_value b)).
    { right. left. exists b. auto. }
    destruct (Z.leb_spec (decimal_value b) (decimal_value a)).
    { right. right. exists (decimal_value a), (decimal_value b). split; [lia|]. auto. }
    unfold valid_annotation. cbn [Shard Of]. lia.
  - assert (Hng : ~ shard_label_grammar s).
    { intros Hg. apply ShardLabelRE_spec in Hg. congruence. }
    rewrite (ParseShard_not_grammar s Hng). left. auto.
Qed.

(** Decoding normalises: whatever string decodes to an annotation, the
    encoding of that annotation decodes to it again. *)
Theorem ParseShard_reencode :
  forall (s : string) (ann : ShardAnnotation),
    ParseShard s = OK ann -> ParseShard (String_ ann) = OK ann.
Proof.
  intros s ann Hok. apply ParseShard_encode_valid.
  destruct (ParseShard_OK_inv s ann Hok) as (a & b & _ & _ & _ & _ & _ & Hvalid).
  exact Hvalid.
Qed.

Lemma ParseShard_reencode_witness :
  ParseShard (String_ {| Shard := 7; Of := 10 |}) = OK {| Shard := 7; Of := 10 |}.
Proof.
  apply (ParseShard_reencode "007_of_0010" {| Shard := 7; Of := 10 |}). reflexivity.
Defined.

Lemma decimal_zero_padded (a : string) :
  decimal a -> decimal (String "0" a) /\ decimal_value (String "0" a) = decimal_value a.
Proof.
  intros [Hne Hd]. split; [split; [discriminate | cbn; exact Hd] | reflexivity].
Qed.

(** Decoding accepts padded numbers: a zero in front of either half does
    not change the annotation a string decodes to. *)
Theorem ParseShard_leading_zero :
  forall (a b : string) (ann : ShardAnnotation),
    decimal a -> decimal b ->
    (ParseShard (String "0" a ++ "_of_" ++ b) = OK ann
     <-> ParseShard (a ++ "_of_" ++ b) = OK ann)
    /\ (ParseShard (a ++ "_of_" ++ String "0" b) = OK ann
        <-> ParseShard (a ++ "_of_" ++ b) = OK ann).
Proof.
  intros a b ann Ha Hb.
  destruct (decimal_zero_padded a Ha) as [Ha0 Hva].
  destruct (decimal_zero_padded b Hb) as [Hb0 Hvb].
  rewrite (ParseShard_decimal _ _ Ha0 Hb), (ParseShard_decimal _ _ Ha Hb0),
    (ParseShard_decimal _ _ Ha Hb), Hva, Hvb.
  split.
  - destruct (strconv.maxInt <? decimal_value a); [split; discriminate | reflexivity].
  - destruct (strconv.maxInt <? decimal_value a); [reflexivity|].
    destruct (strconv.maxInt <? decimal_value b); [split; discriminate | reflexivity].
Qed.

Lemma ParseShard_leading_zero_witness :
  (ParseShard "02_of_4" = OK {| Shard := 2; Of := 4 |}
   <-> ParseShard "2_of_4" = OK {| Shard := 2; Of := 4 |})
  /\ (ParseShard "2_of_04" = OK {| Shard := 2; Of := 4 |}
      <-> ParseShard "2_of_4" = OK {| Shard := 2; Of := 4 |}).
Proof.
  apply (ParseShard_leading_zero "2" "4" {| Shard := 2; Of := 4 |});
    (split; [discriminate | reflexivity]).
Defined.

(** The encoding is injective: two annotations with the same encoding are
    the same annotation, whatever integers they hold; in particular the
    matchers for two shards of the same total differ. *)
Theorem String_injective :
  forall a b : ShardAnnotation, String_ a = String_ b -> a = b.
Proof.
  intros [x y] [x' y'] H. unfold String_ in H. cbn [Shard Of] in H.
  destruct (Sprintf_ShardLabelFmt_halves x y (strconv.Itoa x') (strconv.Itoa y')
              (Itoa_no_underscore x') (Itoa_no_underscore y') H) as [Hx Hy].
  apply Itoa_injective in Hx, Hy. subst. reflexivity.
Qed.

Lemma String_injective_witness :
  {| Shard := 2; Of := 4 |} = {| Shard := 1 + 1; Of := 2 * 2 |}.
Proof.
  apply (String_injective {| Shard := 2; Of := 4 |} {| Shard := 1 + 1; Of := 2 * 2 |}).
  reflexivity.
Defined.

Lemma Itoa_neg_not_decimal (n : Z) : n < 0 -> ~ decimal (strconv.Itoa n).
Proof.
  intros Hn [_ Hd]. destruct (Itoa_neg n Hn) as (d & Heq & _).
  rewrite Heq in Hd. discriminate.
Qed.

(** What decoding makes of the encoding of integers that break the
    invariant: with a negative shard or total the encoding is off the
    pattern and is rejected as an invalid label; with [0 <= of <= shard] it
    is rejected with the bounds error. *)
Theorem ParseShard_String_invalid :
  forall shard of_ : Z,
    (shard < 0 \/ of_ < 0 ->
     ParseShard (String_ {| Shard := shard; Of := of_ |})
     = Err (ErrInvalidShardLabel (String_ {| Shard := shard; Of := of_ |})))
    /\ (0 <= of_ <= shard -> shard <= strconv.maxInt ->
        ParseShard (String_ {| Shard := shard; Of := of_ |})
        = Err (ErrShardsOutOfBounds shard of_)).
Proof.
  intros shard of_. split.
  - intros Hneg. apply ParseShard_not_grammar. intros (a & b & Ha & Hb & Heq).
    unfold String_ in Heq. cbn [Shard Of] in Heq.
    destruct (Sprintf_ShardLabelFmt_halves shard of_ a b
                (all_digits_no_underscore a (proj2 Ha))
                (all_digits_no_underscore b (proj2 Hb)) Heq) as [<- <-].
    destruct Hneg as [H | H]; [exact (Itoa_neg_not_decimal shard H Ha)
                              | exact (Itoa_neg_not_decimal of_ H Hb)].
  - intros Hrange Hmax. unfold String_, Sprintf_ShardLabelFmt. cbn [Shard Of].
    destruct (Itoa_nonneg shard ltac:(lia)) as (Hdx & Hvx & _).
    destruct (Itoa_nonneg of_ ltac:(lia)) as (Hdy & Hvy & _).
    rewrite (ParseShard_decimal _ _ Hdx Hdy), Hvx, Hvy.
    destruct (Z.ltb_spec strconv.maxInt shard); [lia|].
    destruct (Z.ltb_spec strconv.maxInt of_); [lia|].
    destruct (Z.leb_spec of_ shard); [reflexivity | lia].
Qed.

Lemma ParseShard_String_invalid_witness :
  ParseShard (String_ {| Shard := -1; Of := 4 |}) = Err (ErrInvalidShardLabel "-1_of_4")
  /\ ParseShard (String_ {| Shard := 0; Of := -4 |}) = Err (ErrInvalidShardLabel "0_of_-4")
  /\ ParseShard (String_ {| Shard := 0; Of := 0 |}) = Err (ErrShardsOutOfBounds 0 0).
Proof.
  split; [|split].
  - apply (ParseShard_String_invalid (-1) 4). left. lia.
  - apply (ParseShard_String_invalid 0 (-4)). right. lia.
  - apply (ParseShard_String_invalid 0 0); [lia | vm_compute; discriminate].
Defined.

(** The label of a valid annotation bears the reserved name, and its value
    decodes to the annotation. *)
Theorem Label_roundtrip :
  forall ann : ShardAnnotation,
    valid_annotation ann ->
    Label.Name (Label_ ann) = ShardLabel
    /\ ParseShard (Label.Value (Label_ ann)) = OK ann.
Proof.
  intros ann Hvalid. split; [reflexivity|].
  cbn [Label_ Label.Value]. apply ParseShard_encode_valid. exact Hvalid.
Qed.

Lemma Label_roundtrip_witness :
  Label.Name (Label_ {| Shard := 3; Of := 16 |}) = ShardLabel
  /\ ParseShard (Label.Value (Label_ {| Shard := 3; Of := 16 |}))
     = OK {| Shard := 3; Of := 16 |}.
Proof.
  apply (Label_roundtrip {| Shard := 3; Of := 16 |}).
  split; [cbn; lia | vm_compute; discriminate].
Defined.

(** * Further properties of the matcher search *)

Lemma ShardFromMatchers_from_inv (matchers : list Matcher) :
  forall k : Z,
    match ShardFromMatchers_from k matchers with
    | (Some ann, i, None) =>
        exists (j : nat) (m : Matcher),
          i = k + Z.of_nat j /\ nth_error matchers j = Some m
          /\ is_shard_matcher m /\ ParseShard (Value m) = OK ann
          /\ (forall j' m', (j' < j)%nat -> nth_error matchers j' = Some m' ->
                            ~ is_shard_matcher m')
    | (None, i, Some e) =>
        exists (j : nat) (m : Matcher),
          i = k + Z.of_nat j /\ nth_error matchers j = Some m
          /\ is_shard_matcher m /\ ParseShard (Value m) = Err e
          /\ (forall j' m', (j' < j)%nat -> nth_error matchers j' = Some m' ->
                            ~ is_shard_matcher m')
    | (None, i, None) => i = 0 /\ forall m, In m matchers -> ~ is_shard_matcher m
    | (Some _, _, Some _) => False
    end.
Proof.
  induction matchers as [|m0 rest IH]; intros k.
  - cbn. split; [reflexivity | intros m []].
  - cbn [ShardFromMatchers_from].
    destruct (String.eqb (Name m0) ShardLabel && MatchType_eqb (Type_ m0) MatchEqual)
      eqn:Htest.
    + apply is_shard_matcher_test in Htest.
      destruct (ParseShard (Value m0)) as [ann | e] eqn:Hparse;
        exists O, m0; (split; [lia|]); (split; [reflexivity|]);
        (split; [exact Htest|]); (split; [exact Hparse|]); intros j' m' Hj'; lia.
    + assert (Hm0 : ~ is_shard_matcher m0).
      { intros H. apply is_shard_matcher_test in H. congruence. }
      specialize (IH (k + 1)).
      destruct (ShardFromMatchers_from (k + 1) rest) as [[[ann|] i] [e|]].
      * exact IH.
      * destruct IH as (j & m & Hi & Hnth & Hm & Hp & Hfirst).
        exists (S j), m. split; [lia|]. split; [exact Hnth|]. split; [exact Hm|].
        split; [exact Hp|]. intros [|j'] m' Hj' Hnth'.
        -- injection Hnth' as <-. exact Hm0.
        -- apply (Hfirst j' m'); [lia | exact Hnth'].
      * destruct IH as (j & m & Hi & Hnth & Hm & Hp & Hfirst).
        exists (S j), m. split; [lia|]. split; [exact Hnth|]. split; [exact Hm|].
        split; [exact Hp|]. intros [|j'] m' Hj' Hnth'.
        -- injection Hnth' as <-. exact Hm0.
        -- apply (Hfirst j' m'); [lia | exact Hnth'].
      * destruct IH as [Hi Hnone]. split; [exact Hi|].
        intros m [<- | Hin]; [exact Hm0 | exact (Hnone m Hin)].
Qed.

(** Whatever [ShardFromMatchers] returns can be traced to the list: an
    annotation comes with the index, within the list, of the first equality
    matcher on the shard label, whose value decodes to that annotation (so
    the annotation satisfies the invariant); an error comes with the index
    of that first matcher and is its decoding error; and the result
    (nil, 0, nil) means the list has no such matcher.  An annotation and an
    error are never returned together. *)
Theorem ShardFromMatchers_inv :
  forall matchers : list Matcher,
    match ShardFromMatchers matchers with
    | (Some ann, i, None) =>
        exists (j : nat) (m : Matcher),
          i = Z.of_nat j /\ (j < List.length matchers)%nat
          /\ nth_error matchers j = Some m
          /\ is_shard_matcher m /\ ParseShard (Value m) = OK ann
          /\ valid_annotation ann
          /\ (forall j' m', (j' < j)%nat -> nth_error matchers j' = Some m' ->
                            ~ is_shard_matcher m')
    | (None, i, Some e) =>
        exists (j : nat) (m : Matcher),
          i = Z.of_nat j /\ (j < List.length matchers)%nat
          /\ nth_error matchers j = Some m
          /\ is_shard_matcher m /\ ParseShard (Value m) = Err e
          /\ (forall j' m', (j' < j)%nat -> nth_error matchers j' = Some m' ->
                            ~ is_shard_matcher m')
    | (None, i, None) => i = 0 /\ forall m, In m matchers -> ~ is_shard_matcher m
    | (Some _, _, Some _) => False
    end.
Proof.
  intros matchers. unfold ShardFromMatchers.
  pose proof (ShardFromMatchers_from_inv matchers 0) as H.
  destruct (ShardFromMatchers_from 0 matchers) as [[[ann|] i] [e|]]; try exact H.
  - destruct H as (j & m & Hi & Hnth & Hm & Hp & Hfirst).
    exists j, m. split; [lia|].
    split; [apply nth_error_Some; congruence|].
    split; [exact Hnth|]. split; [exact Hm|]. split; [exact Hp|].
    split; [|exact Hfirst].
    destruct (ParseShard_OK_inv _ _ Hp) as (a & b & _ & _ & _ & _ & _ & Hvalid).
    exact Hvalid.
  - destruct H as (j & m & Hi & Hnth & Hm & Hp & Hfirst).
    exists j, m. split; [lia|].
    split; [apply nth_error_Some; congruence|]. auto.
Qed.

Lemma ShardFromMatchers_shardMatcherOf (cur n : Z) (rest : list Matcher) :
  ShardFromMatchers (shardMatcherOf cur n :: rest)
  = match ParseShard (String_ {| Shard := cur; Of := n |}) with
    | OK shard => (Some shard, 0, None)
    | Err e => (None, 0, Some e)
    end.
Proof. reflexivity. Qed.

(** Sharding and searching compose: in a selector rewritten for shard
    [cur] of [n], with [0 <= cur < n] of type [int], the search finds the
    annotation [{cur, n}] at index 0, whatever matchers the selector had
    before (an older shard matcher among them is shadowed).  The same holds
    for the inner selector of a rewritten matrix selector. *)
Theorem ShardFromMatchers_after_sharding :
  forall regexp_compiles (cur n : Z) (sel : VectorSelector.t) (range : Z) (endPos : Pos),
    valid_annotation {| Shard := cur; Of := n |} ->
    (exists sel',
        shardVectorSelector regexp_compiles cur n sel = OK (Vector sel')
        /\ ShardFromMatchers (VectorSelector.LabelMatchers sel')
           = (Some {| Shard := cur; Of := n |}, 0, None))
    /\ (exists sel' ms',
           shardMatrixSelector regexp_compiles cur n
             {| MatrixSelector.VectorSelector := Vector sel;
                MatrixSelector.Range := range;
                MatrixSelector.EndPos := endPos |}
           = OK (Matrix ms')
           /\ MatrixSelector.VectorSelector ms' = Vector sel'
           /\ ShardFromMatchers (VectorSelector.LabelMatchers sel')
              = (Some {| Shard := cur; Of := n |}, 0, None)).
Proof.
  intros rc cur n sel range endPos Hvalid.
  assert (Hfound : forall rest,
             ShardFromMatchers (shardMatcherOf cur n :: rest)
             = (Some {| Shard := cur; Of := n |}, 0, None)).
  { intros rest. rewrite ShardFromMatchers_shardMatcherOf.
    rewrite (ParseShard_encode_valid _ Hvalid). reflexivity. }
  split.
  - eexists. rewrite shardVectorSelector_eq. split; [reflexivity|].
    cbn [VectorSelector.LabelMatchers]. apply Hfound.
  - do 2 eexists. rewrite shardMatrixSelector_vector. split; [reflexivity|].
    cbn [MatrixSelector.VectorSelector]. split; [reflexivity|].
    cbn [VectorSelector.LabelMatchers]. apply Hfound.
Qed.

Lemma ShardFromMatchers_after_sharding_witness :
  (exists sel',
      shardVectorSelector (fun _ => true) 1 4
        {| VectorSelector.Name := "metric";
           VectorSelector.Offset := 0;
           VectorSelector.LabelMatchers := Example.matchersThird;
           VectorSelector.PosRange := zeroPositionRange |}
      = OK (Vector sel')
      /\ ShardFromMatchers (VectorSelector.LabelMatchers sel')
         = (Some {| Shard := 1; Of := 4 |}, 0, None))
  /\ (exists sel' ms',
         shardMatrixSelector (fun _ => true) 1 4
           {| MatrixSelector.VectorSelector :=
                Vector
                  {| VectorSelector.Name := "metric";
                     VectorSelector.Offset := 0;
                     VectorSelector.LabelMatchers := Example.matchersThird;
                     VectorSelector.PosRange := zeroPositionRange |};
              MatrixSelector.Range := 60;
              MatrixSelector.EndPos := 9 |}
         = OK (Matrix ms')
         /\ MatrixSelector.VectorSelector ms' = Vector sel'
         /\ ShardFromMatchers (VectorSelector.LabelMatchers sel')
            = (Some {| Shard := 1; Of := 4 |}, 0, None)).
Proof.
  apply (ShardFromMatchers_after_sharding (fun _ => true) 1 4).
  split; [cbn; lia | vm_compute; discriminate].
Defined.

(** * Further properties of the node rewrite *)

(** [MapNode] on a matrix selector.  While the summer is bound to shard
    [i]: a matrix selector over a plain vector selector is rebuilt with the
    shard matcher in front of the inner matchers; over anything else the
    result is the "invalid selector type" error.  While the summer is
    unbound every matrix selector comes back as it is, the invalid ones
    too.  In all three cases [done = true] and the counter is left alone. *)
Theorem MapNode_matrix_selector :
  forall regexp_compiles CanParallelize CloneNode Map
         (n : Z) (sq : squasher) (o : CounterOpts) (i : Z)
         (sel : MatrixSelector.t Node) (c : Counter),
    (forall vs, MatrixSelector.VectorSelector sel = Vector vs ->
       MapNode regexp_compiles CanParallelize CloneNode Map
         {| shards := n; currentShard := Some i; squash := sq; shardedQueries := o |}
         (Matrix sel) c
       = ((OK (Matrix
                 {| MatrixSelector.VectorSelector :=
                      Vector
                        {| VectorSelector.Name := VectorSelector.Name vs;
                           VectorSelector.Offset := VectorSelector.Offset vs;
                           VectorSelector.LabelMatchers :=
                             shardMatcherOf i n :: VectorSelector.LabelMatchers vs;
                           VectorSelector.PosRange := VectorSelector.PosRange vs |};
                    MatrixSelector.Range := MatrixSelector.Range sel;
                    MatrixSelector.EndPos := MatrixSelector.EndPos sel |}),
           true), c))
    /\ (is_vector (MatrixSelector.VectorSelector sel) = false ->
        MapNode regexp_compiles CanParallelize CloneNode Map
          {| shards := n; currentShard := Some i; squash := sq; shardedQueries := o |}
          (Matrix sel) c
        = ((Err (ErrInvalidSelectorType (typeName (MatrixSelector.VectorSelector sel))),
            true), c))
    /\ MapNode regexp_compiles CanParallelize CloneNode Map
         {| shards := n; currentShard := None; squash := sq; shardedQueries := o |}
         (Matrix sel) c
       = ((OK (Matrix sel), true), c).
Proof.
  intros rc CanP Clone Map n sq o i [inner range endPos] c.
  cbn [MatrixSelector.VectorSelector MatrixSelector.Range MatrixSelector.EndPos].
  split; [|split].
  - intros vs ->. cbn [MapNode currentShard shards].
    rewrite shardMatrixSelector_vector. reflexivity.
  - intros Hnv. destruct inner; try discriminate; reflexivity.
  - reflexivity.
Qed.

Lemma MapNode_matrix_selector_witness :
  fst (fst (MapNode (fun _ => true) (fun _ => true) Example.cloneOK idMapper
              (CopyWithCurShard (Example.summer 4 Example.squashLegs) 1)
              (Matrix Example.matrix) []))
  = shardMatrixSelector (fun _ => true) 1 4 Example.matrix
  /\ MapNode (fun _ => true) (fun _ => true) Example.cloneOK idMapper
       (CopyWithCurShard (Example.summer 4 Example.squashLegs) 1)
       (Matrix {| MatrixSelector.VectorSelector := Other "*promql.SubqueryExpr" [];
                  MatrixSelector.Range := 60;
                  MatrixSelector.EndPos := 9 |}) []
     = ((Err (ErrInvalidSelectorType "*promql.SubqueryExpr"), true), []).
Proof.
  split.
  - destruct (MapNode_matrix_selector (fun _ => true) (fun _ => true) Example.cloneOK
                idMapper 4 Example.squashLegs Example.opts 1 Example.matrix [])
      as (Hvec & _ & _).
    change (CopyWithCurShard (Example.summer 4 Example.squashLegs) 1)
      with {| shards := 4; currentShard := Some 1; squash := Example.squashLegs;
              shardedQueries := Example.opts |}.
    rewrite (Hvec Example.selector eq_refl). reflexivity.
  - destruct (MapNode_matrix_selector (fun _ => true) (fun _ => true) Example.cloneOK
                idMapper 4 Example.squashLegs Example.opts 1
                {| MatrixSelector.VectorSelector := Other "*promql.SubqueryExpr" [];
                   MatrixSelector.Range := 60;
                   MatrixSelector.EndPos := 9 |} [])
      as (_ & Hbad & _).
    exact (Hbad eq_refl).
Defined.

(** What [done = false] means, and when the counter can move.  Whenever
    [MapNode] answers [done = false] it hands back the very node it was
    given, with no error and the counter untouched; an error always comes
    with [done = true]; and the counter can change only on an aggregate
    that is a [sum] approved by the parallelizability predicate. *)
Theorem MapNode_done_and_counter :
  forall regexp_compiles CanParallelize CloneNode Map
         (summer : shardSummer) (node : Node) (c : Counter),
    let r := MapNode regexp_compiles CanParallelize CloneNode Map summer node c in
    (snd (fst r) = false -> fst (fst r) = OK node /\ snd r = c)
    /\ (forall e, fst (fst r) = Err e -> snd (fst r) = true)
    /\ (snd r <> c ->
        exists n, node = Aggregate n
                  /\ CanParallelize node = true
                  /\ AggregateExpr.Op n = SUM).
Proof.
  intros rc CanP Clone Map summer node c r. subst r.
  destruct node as [| n | n | n | kind children]; cbn [MapNode].
  - cbn. split; [auto|]. split; [discriminate | congruence].
  - destruct (CanP (Aggregate n)) eqn:Hp; cbn [andb].
    + destruct (ItemType_eqb (AggregateExpr.Op n) SUM) eqn:Hop.
      * rewrite bind_run. cbn [ret fst snd].
        split; [discriminate|]. split; [reflexivity|].
        intros _. exists n. split; [reflexivity|]. split; [reflexivity|].
        destruct (AggregateExpr.Op n); try discriminate; reflexivity.
      * cbn. split; [auto|]. split; [discriminate | congruence].
    + cbn. split; [auto|]. split; [discriminate | congruence].
  - destruct (currentShard summer); cbn;
      (split; [discriminate|]); (split; [reflexivity | congruence]).
  - destruct (currentShard summer); cbn;
      (split; [discriminate|]); (split; [reflexivity | congruence]).
  - cbn. split; [auto|]. split; [discriminate | congruence].
Qed.

Lemma MapNode_done_and_counter_witness :
  (* a count aggregate: not rewritten, the walk goes on below it *)
  (fst (fst (MapNode (fun _ => true) (fun _ => true) Example.cloneOK (Example.run 3)
               (Example.summer 2 Example.squashLegs)
               (Aggregate (Example.agg COUNT false [] (Vector Example.selector))) []))
   = OK (Aggregate (Example.agg COUNT false [] (Vector Example.selector)))
   /\ snd (MapNode (fun _ => true) (fun _ => true) Example.cloneOK (Example.run 3)
             (Example.summer 2 Example.squashLegs)
             (Aggregate (Example.agg COUNT false [] (Vector Example.selector))) [])
      = [])
  (* an invalid matrix selector under a bound summer: the error stops the walk *)
  /\ snd (fst (MapNode (fun _ => true) (fun _ => true) Example.cloneOK (Example.run 3)
                 (CopyWithCurShard (Example.summer 2 Example.squashLegs) 0)
                 (Matrix {| MatrixSelector.VectorSelector := Nil;
                            MatrixSelector.Range := 60;
                            MatrixSelector.EndPos := 9 |}) []))
     = true
  (* a split moved the counter: the node was an approved sum *)
  /\ (exists n, Aggregate Example.sumQuery = Aggregate n
                /\ (fun _ : Node => true) (Aggregate Example.sumQuery) = true
                /\ AggregateExpr.Op n = SUM).
Proof.
  split; [|split].
  - destruct (MapNode_done_and_counter (fun _ => true) (fun _ => true) Example.cloneOK
                (Example.run 3) (Example.summer 2 Example.squashLegs)
                (Aggregate (Example.agg COUNT false [] (Vector Example.selector))) [])
      as (Hfalse & _ & _).
    apply Hfalse. reflexivity.
  - destruct (MapNode_done_and_counter (fun _ => true) (fun _ => true) Example.cloneOK
                (Example.run 3) (CopyWithCurShard (Example.summer 2 Example.squashLegs) 0)
                (Matrix {| MatrixSelector.VectorSelector := Nil;
                           MatrixSelector.Range := 60;
                           MatrixSelector.EndPos := 9 |}) [])
      as (_ & Herr & _).
    apply (Herr (ErrInvalidSelectorType "<nil>")). reflexivity.
  - destruct (MapNode_done_and_counter (fun _ => true) (fun _ => true) Example.cloneOK
                (Example.run 3) (Example.summer 2 Example.squashLegs)
                (Aggregate Example.sumQuery) [])
      as (_ & _ & Hmoved).
    apply Hmoved. discriminate.
Defined.

(** A summer fresh from [NewShardSummer] keeps the shard count and the
    combiner it was given and is bound to no shard, so [MapNode] hands
    every selector back as it is: selectors are only rewritten inside a
    split. *)
Theorem NewShardSummer_unbound :
  forall regexp_compiles CanParallelize CloneNode Map
         (n : Z) (sq : option squasher) (registerer : option Registerer)
         (summer : shardSummer),
    NewShardSummer n sq registerer = OK summer ->
    shards summer = n
    /\ sq = Some (squash summer)
    /\ currentShard summer = None
    /\ (forall node c,
          is_selector node = true ->
          MapNode regexp_compiles CanParallelize CloneNode Map summer node c
          = ((OK node, true), c)).
Proof.
  intros rc CanP Clone Map n [sq|] registerer summer H; cbn in H; [|discriminate].
  assert (Hsummer : exists opts,
             summer = {| shards := n; currentShard := None; squash := sq;
                         shardedQueries := opts |}).
  { destruct registerer as [r|]; cbn in H.
    - destruct (Register r _); [discriminate|]. injection H as <-. eauto.
    - injection H as <-. eauto. }
  destruct Hsummer as [opts ->]. cbn [shards squash currentShard].
  split; [reflexivity|]. split; [reflexivity|]. split; [reflexivity|].
  intros node c Hsel. destruct node; try discriminate; reflexivity.
Qed.

Lemma NewShardSummer_unbound_witness :
  MapNode (fun _ => true) (fun _ => true) Example.cloneOK (Example.run 3)
    (Example.summer 16 Example.squashLegs) (Matrix Example.matrix) [5]
  = ((OK (Matrix Example.matrix), true), [5]).
Proof.
  apply (NewShardSummer_unbound (fun _ => true) (fun _ => true) Example.cloneOK
           (Example.run 3) 16 (Some Example.squashLegs) (Some Example.registererOK)
           (Example.summer 16 Example.squashLegs) eq_refl).
  reflexivity.
Defined.

(** * Further properties of the split *)

Section LegFacts.

Variable CloneNode : Node -> result Node.
Variable Map : shardSummer -> Node -> M (result Node).

(** The loop only ever adds legs behind the ones it has. *)
Lemma splitSum_children_prefix summer expr mkChild :
  forall n i children c,
    exists more,
      fst (fst (splitSum_children CloneNode Map summer expr mkChild n i children c))
      = (children ++ more)%list.
Proof.
  induction n as [|n IH]; intros i children c.
  - exists []. cbn. now rewrite app_nil_r.
  - rewrite splitSum_children_S.
    destruct (CloneNode (AggregateExpr.Expr expr)) as [cloned | err].
    2:{ exists []. cbn. now rewrite app_nil_r. }
    destruct (Map (CopyWithCurShard summer i) cloned c) as [[sharded | err] c'].
    2:{ exists []. cbn. now rewrite app_nil_r. }
    destruct (implements_Expr sharded).
    2:{ exists []. cbn. now rewrite app_nil_r. }
    destruct (IH (i + 1) (children ++ [mkChild (freshChild expr sharded)])%list c')
      as [more Hmore].
    exists (mkChild (freshChild expr sharded) :: more). rewrite Hmore.
    rewrite <- app_assoc. reflexivity.
Qed.

(** The leg at position [k] was built in the iteration for shard [k]. *)
Lemma splitSum_children_nth summer expr mkChild :
  forall n i children c k child,
    i = Z.of_nat (List.length children) ->
    (List.length children <= k)%nat ->
    nth_error (fst (fst (splitSum_children CloneNode Map summer expr mkChild
                           n i children c))) k = Some child ->
    exists cloned ck sharded,
      CloneNode (AggregateExpr.Expr expr) = OK cloned
      /\ fst (Map (CopyWithCurShard summer (Z.of_nat k)) cloned ck) = OK sharded
      /\ implements_Expr sharded = true
      /\ child = mkChild (freshChild expr sharded)
      /\ Z.of_nat k < i + Z.of_nat n.
Proof.
  induction n as [|n IH]; intros i children c k child Hi Hk Hnth.
  - cbn in Hnth. apply nth_error_None in Hk. congruence.
  - rewrite splitSum_children_S in Hnth.
    destruct (CloneNode (AggregateExpr.Expr expr)) as [cloned | err] eqn:Hclone.
    2:{ cbn in Hnth. apply nth_error_None in Hk. congruence. }
    destruct (Map (CopyWithCurShard summer i) cloned c) as [[sharded | err] c'] eqn:Hmap.
    2:{ cbn in Hnth. apply nth_error_None in Hk. congruence. }
    destruct (implements_Expr sharded) eqn:Himpl.
    2:{ cbn in Hnth. apply nth_error_None in Hk. congruence. }
    destruct (Nat.eq_dec k (List.length children)) as [-> | Hne].
    + destruct (splitSum_children_prefix summer expr mkChild n (i + 1)
                  (children ++ [mkChild (freshChild expr sharded)])%list c')
        as [more Hmore].
      rewrite Hmore, <- app_assoc in Hnth.
      rewrite nth_error_app2 in Hnth by lia.
      rewrite Nat.sub_diag in Hnth. cbn in Hnth. injection Hnth as <-.
      exists cloned, c, sharded. rewrite <- Hi, Hmap.
      repeat split; try assumption; try reflexivity. lia.
    + destruct (IH (i + 1) (children ++ [mkChild (freshChild expr sharded)])%list c' k child)
        as (cl & ck & sh & H1 & H2 & H3 & H4 & H5).
      * rewrite length_app. cbn. lia.
      * rewrite length_app. cbn. lia.
      * exact Hnth.
      * exists cl, ck, sh. repeat split; try assumption. lia.
Qed.

(** [mkChild] sets the grouping and keeps operator, inner expression and
    parameter of the aggregate it is given. *)
Lemma splitSum_shape_mkChild (expr x : AggregateExpr.t Node) :
  exists a,
    snd (splitSum_shape expr) x = Aggregate a
    /\ AggregateExpr.Op a = AggregateExpr.Op x
    /\ AggregateExpr.Expr a = AggregateExpr.Expr x
    /\ AggregateExpr.Param a = AggregateExpr.Param x.
Proof.
  unfold splitSum_shape. destruct (AggregateExpr.Without expr).
  - eexists. cbn. repeat split.
  - destruct (0 <? _)%nat; eexists; cbn; repeat split.
Qed.

(** The legs come in ascending shard order, one per shard from 0 on: the
    leg at position [k] is an aggregate with the operator of the original
    and no parameter, around what the mapper of a summer bound to shard [k]
    returned for a clone of the original's inner expression; and [k] is
    below the shard count.  This holds for the legs of a split that failed
    half-way as well. *)
Theorem splitSum_leg_for_each_shard :
  forall (summer : shardSummer) (expr : AggregateExpr.t Node) (c : Counter)
         (k : nat) (child : Node),
    nth_error (snd (fst (fst (splitSum CloneNode Map summer expr c)))) k = Some child ->
    exists cloned ck sharded a,
      CloneNode (AggregateExpr.Expr expr) = OK cloned
      /\ fst (Map (CopyWithCurShard summer (Z.of_nat k)) cloned ck) = OK sharded
      /\ child = Aggregate a
      /\ AggregateExpr.Op a = AggregateExpr.Op expr
      /\ AggregateExpr.Expr a = sharded
      /\ AggregateExpr.Param a = Nil
      /\ Z.of_nat k < shards summer.
Proof.
  intros summer expr c k child Hnth.
  rewrite splitSum_legs in Hnth.
  destruct (splitSum_children_nth summer expr (snd (splitSum_shape expr))
              (Z.to_nat (shards summer)) 0 [] c k child eq_refl (Nat.le_0_l k) Hnth)
    as (cloned & ck & sharded & Hclone & Hmap & _ & Hchild & Hk).
  destruct (splitSum_shape_mkChild expr (freshChild expr sharded))
    as (a & Ha & Hop & Hexpr & Hparam).
  exists cloned, ck, sharded, a.
  split; [exact Hclone|]. split; [exact Hmap|]. split; [congruence|].
  split; [exact Hop|]. split; [exact Hexpr|]. split; [exact Hparam|]. lia.
Qed.

(** When the mapper only appends to the counter, so do [splitSum],
    [shardSum] and [MapNode]. *)
Lemma splitSum_only_appends :
  only_appends Map ->
  forall summer expr c,
    exists ev, snd (splitSum CloneNode Map summer expr c) = (c ++ ev)%list.
Proof.
  intros Hmap summer expr c. rewrite splitSum_eq. cbv zeta.
  destruct (splitSum_children_appends CloneNode Map summer expr (snd (splitSum_shape expr))
              Hmap (Z.to_nat (shards summer)) 0 [] c) as [ev Hev].
  destruct (snd (fst (splitSum_children _ _ _ _ _ _ _ _ _))); cbn [snd].
  - exists ev. exact Hev.
  - destruct (shards summer <? 0); cbn [snd].
    + exists ev. exact Hev.
    + exists (ev ++ [shards summer])%list. rewrite Hev, app_assoc. reflexivity.
Qed.

Lemma shardSum_only_appends :
  only_appends Map ->
  forall summer expr c,
    exists ev, snd (shardSum CloneNode Map summer expr c) = (c ++ ev)%list.
Proof.
  intros Hmap summer expr c. rewrite shardSum_eq. cbv zeta.
  destruct (splitSum_only_appends Hmap summer expr c) as [ev Hev].
  exists ev. rewrite <- Hev.
  destruct (snd (fst (splitSum CloneNode Map summer expr c))); [reflexivity|].
  destruct (squash summer _); reflexivity.
Qed.

End LegFacts.

Lemma splitSum_leg_for_each_shard_witness :
  exists cloned ck sharded a,
    Example.cloneOK (AggregateExpr.Expr Example.sumByQuery) = OK cloned
    /\ fst (Example.run 3 (CopyWithCurShard (Example.summer 4 Example.squashLegs)
                             (Z.of_nat 2)) cloned ck) = OK sharded
    /\ Aggregate
         {| AggregateExpr.Op := SUM;
            AggregateExpr.Expr :=
              Vector
                {| VectorSelector.Name := "metric";
                   VectorSelector.Offset := 0;
                   VectorSelector.LabelMatchers :=
                     shardMatcherOf 2 4 :: VectorSelector.LabelMatchers Example.selector;
                   VectorSelector.PosRange := zeroPositionRange |};
            AggregateExpr.Param := Nil;
            AggregateExpr.Grouping := ["foo"%string; ShardLabel];
            AggregateExpr.Without := false;
            AggregateExpr.PosRange := zeroPositionRange |}
       = Aggregate a
    /\ AggregateExpr.Op a = AggregateExpr.Op Example.sumByQuery
    /\ AggregateExpr.Expr a = sharded
    /\ AggregateExpr.Param a = Nil
    /\ Z.of_nat 2 < shards (Example.summer 4 Example.squashLegs).
Proof.
  apply (splitSum_leg_for_each_shard Example.cloneOK (Example.run 3)
           (Example.summer 4 Example.squashLegs) Example.sumByQuery [] 2%nat).
  reflexivity.
Defined.

(** ** The counter never loses an entry *)

Lemma mapNodes_only_appends (f : Node -> M (result Node)) :
  (forall node c, exists ev, snd (f node c) = (c ++ ev)%list) ->
  forall nodes c, exists ev, snd (mapNodes f nodes c) = (c ++ ev)%list.
Proof.
  intros Hf. induction nodes as [|node rest IH]; intros c.
  - exists []. cbn. now rewrite app_nil_r.
  - cbn [mapNodes]. rewrite bind_run.
    destruct (Hf node c) as [ev Hev].
    destruct (fst (f node c)) as [mapped | err].
    2:{ exists ev. exact Hev. }
    rewrite bind_run. destruct (IH (snd (f node c))) as [ev' Hev'].
    exists (ev ++ ev')%list.
    destruct (fst (mapNodes f rest (snd (f node c)))); cbn [ret snd];
      rewrite Hev', Hev, app_assoc; reflexivity.
Qed.

Lemma MapNode_appends_from_Map regexp_compiles CanParallelize CloneNode Map :
  only_appends Map ->
  forall summer node c,
    exists ev,
      snd (MapNode regexp_compiles CanParallelize CloneNode Map summer node c)
      = (c ++ ev)%list.
Proof.
  intros Hmap summer node c.
  assert (Hsame : forall x : result Node * bool, exists ev, snd (ret x c) = (c ++ ev)%list)
    by (intros x; exists []; cbn; now rewrite app_nil_r).
  destruct node as [| n | n | n | kind children]; cbn [MapNode]; try apply Hsame.
  - destruct (CanParallelize (Aggregate n) && ItemType_eqb (AggregateExpr.Op n) SUM);
      [|apply Hsame].
    rewrite bind_run. cbn [ret snd]. apply shardSum_only_appends. exact Hmap.
  - destruct (currentShard summer); apply Hsame.
  - destruct (currentShard summer); apply Hsame.
Qed.

(** The tree mapper only appends to the counter, at every depth. *)
Lemma Map_only_appends regexp_compiles CanParallelize CloneNode :
  forall fuel, only_appends (Map regexp_compiles CanParallelize CloneNode fuel).
Proof.
  induction fuel as [|fuel IH]; intros summer node c.
  - exists []. cbn. now rewrite app_nil_r.
  - cbn [Map]. rewrite bind_run.
    destruct (MapNode_appends_from_Map regexp_compiles CanParallelize CloneNode _ IH
                summer node c) as [ev Hev].
    set (r := MapNode regexp_compiles CanParallelize CloneNode
                (Map regexp_compiles CanParallelize CloneNode fuel) summer node c) in *.
    destruct (fst r) as [[mapped | err] done]; cbn [ret snd].
    2:{ exists ev. exact Hev. }
    destruct done; [exists ev; exact Hev|].
    destruct mapped as [| n | n | n | kind children];
      try (exists ev; exact Hev).
    + rewrite bind_run. destruct (IH summer (AggregateExpr.Expr n) (snd r)) as [ev' Hev'].
      exists (ev ++ ev')%list.
      destruct (fst (Map _ _ _ fuel summer (AggregateExpr.Expr n) (snd r))); cbn [ret snd];
        rewrite Hev', Hev, app_assoc; reflexivity.
    + rewrite bind_run.
      destruct (mapNodes_only_appends
                  (Map regexp_compiles CanParallelize CloneNode fuel summer)
                  (IH summer) children (snd r)) as [ev' Hev'].
      exists (ev ++ ev')%list.
      destruct (fst (mapNodes _ children (snd r))); cbn [ret snd];
        rewrite Hev', Hev, app_assoc; reflexivity.
Qed.

(** Nothing in the shard summer takes an amount back from the counter or
    reorders it: if the mapper used for the legs only appends to the
    counter, then after [shardSum] and after [MapNode] the amounts recorded
    before are still there, in the same order, followed by the new ones, on
    success and on failure alike. *)
Theorem counter_only_appended :
  forall regexp_compiles CanParallelize CloneNode Map,
    only_appends Map ->
    (forall summer expr c,
        exists ev, snd (shardSum CloneNode Map summer expr c) = (c ++ ev)%list)
    /\ (forall summer node c,
           exists ev,
             snd (MapNode regexp_compiles CanParallelize CloneNode Map summer node c)
             = (c ++ ev)%list).
Proof.
  intros rc CanP Clone Map Hmap. split.
  - apply shardSum_only_appends. exact Hmap.
  - apply MapNode_appends_from_Map. exact Hmap.
Qed.

Lemma counter_only_appended_witness :
  (exists ev,
      snd (shardSum Example.cloneOK (Example.run 4) (Example.summer 2 Example.squashFails)
             (Example.agg SUM false [] (Aggregate Example.sumByQuery)) [9; 9])
      = ([9; 9] ++ ev)%list)
  /\ (exists ev,
         snd (MapNode (fun _ => true) (fun _ => true) Example.cloneOK (Example.run 4)
                (Example.summer 2 Example.squashLegs)
                (Aggregate Example.sumQuery) [9; 9])
         = ([9; 9] ++ ev)%list).
Proof.
  destruct (counter_only_appended (fun _ => true) (fun _ => true) Example.cloneOK
              (Example.run 4)
              (Map_only_appends (fun _ => true) (fun _ => true) Example.cloneOK 4))
    as [Hsum Hnode].
  split; [apply Hsum | apply Hnode].
Defined.

(** ** A split does not look at the shard the summer is bound to *)

Lemma CopyWithCurShard_twice (summer : shardSummer) (i j : Z) :
  CopyWithCurShard (CopyWithCurShard summer i) j = CopyWithCurShard summer j.
Proof. reflexivity. Qed.

Lemma splitSum_children_rebound CloneNode Map summer (cur : Z) expr mkChild :
  forall n i children c,
    splitSum_children CloneNode Map (CopyWithCurShard summer cur) expr mkChild n i children c
    = splitSum_children CloneNode Map summer expr mkChild n i children c.
Proof.
  induction n as [|n IH]; intros i children c; [reflexivity|].
  rewrite !splitSum_children_S, CopyWithCurShard_twice.
  destruct (CloneNode (AggregateExpr.Expr expr)) as [cloned | err]; [|reflexivity].
  destruct (Map (CopyWithCurShard summer i) cloned c) as [[sharded | err] c']; [|reflexivity].
  destruct (implements_Expr sharded); [apply IH | reflexivity].
Qed.

(** A split inside a leg starts afresh: [shardSum] and [MapNode] on an
    aggregate give the same result and the same counter for a summer bound
    to any shard as for the unbound summer it was copied from.  The legs of
    a nested sum are therefore bound to the inner shard index alone; the
    index of the enclosing leg is not carried into them. *)
Theorem shardSum_ignores_binding :
  forall regexp_compiles CanParallelize CloneNode Map
         (summer : shardSummer) (cur : Z) (expr : AggregateExpr.t Node) (c : Counter),
    shardSum CloneNode Map (CopyWithCurShard summer cur) expr c
    = shardSum CloneNode Map summer expr c
    /\ MapNode regexp_compiles CanParallelize CloneNode Map
         (CopyWithCurShard summer cur) (Aggregate expr) c
       = MapNode regexp_compiles CanParallelize CloneNode Map summer (Aggregate expr) c.
Proof.
  intros rc CanP Clone Map summer cur expr c.
  assert (Hsplit : splitSum Clone Map (CopyWithCurShard summer cur) expr c
                   = splitSum Clone Map summer expr c).
  { rewrite !splitSum_eq. cbv zeta. rewrite splitSum_children_rebound. reflexivity. }
  assert (Hsum : shardSum Clone Map (CopyWithCurShard summer cur) expr c
                 = shardSum Clone Map summer expr c).
  { rewrite !shardSum_eq. cbv zeta. rewrite Hsplit. reflexivity. }
  split; [exact Hsum|].
  cbn [MapNode].
  destruct (CanP (Aggregate expr) && ItemType_eqb (AggregateExpr.Op expr) SUM);
    [|reflexivity].
  rewrite !bind_run, Hsum. reflexivity.
Qed.
